(** * Envelope encryption of secrets: [pkg/services/secrets]

    A shallow embedding of the Go package [secrets] (type [Secrets] with
    its methods [Init], [newRandomDataKey], [Encrypt], [Decrypt] and
    [dataKey]) together with the parts of the Go standard library the
    package calls ([encoding/base64]'s [RawStdEncoding], [bytes.Index],
    [errors.Is], map reads and writes), and the properties of the
    envelope format, of the data key cache and of the bootstrap of the
    root key. *)

From Stdlib Require Import NArith ZArith List Lia ZifyNat.
From Stdlib Require Import Strings.String Strings.Byte.
From stdpp Require Import base option list gmap strings.

Local Open Scope N_scope.

(** ** Bytes *)

(** A Go [[]byte] is a list of bytes; a Go [string] is a [string]
    (a sequence of 8-bit characters).  [[]byte(s)] is
    [list_byte_of_string s] and [string(b)] is [string_of_list_byte b]. *)

Abbreviation bytes := (list byte).

(** [byte(v)] for an unsigned [v]: the conversion keeps the low 8 bits. *)
Definition byte_of_uint (v : N) : byte :=
  match Byte.of_N (v mod 256) with
  | Some b => b
  | None => x00
  end.

(** [uint(b)] *)
Definition uint (b : byte) : N := Byte.to_N b.

(** The delimiter of the envelope, ['#']. *)
Definition hash : byte := x23.

(** ** [encoding/base64]: [RawStdEncoding] *)

Module base64.

(** [const encodeStd = "ABC...XYZabc...xyz0123456789+/"] *)
Definition encodeStd : string :=
  "ABCDEFGHIJKLMNOPQRSTUVWXYZabcdefghijklmnopqrstuvwxyz0123456789+/".

(** [enc.encode[i]] for [i] below 64. *)
Definition encode_tab (i : N) : byte :=
  nth (N.to_nat i) (list_byte_of_string encodeStd) x00.

(** Position of [c] in a table, counting from [i]. *)
Fixpoint index_from (i : N) (c : byte) (tab : bytes) : option N :=
  match tab with
  | [] => None
  | x :: tab' => if Byte.eqb x c then Some i else index_from (i + 1) c tab'
  end.

(** [enc.decodeMap[c]]: [NewEncoding] fills the map with [0xFF] and
    then sets [decodeMap[encoder[i]] = byte(i)]. *)
Definition decodeMap (c : byte) : N :=
  match index_from 0 c (list_byte_of_string encodeStd) with
  | Some i => i
  | None => 255
  end.

(** [EncodedLen] without padding: [(n*8 + 5) / 6]. *)
Definition EncodedLen (n : nat) : nat := (n * 8 + 5) / 6.

(** [DecodedLen] without padding: [n * 6 / 8]. *)
Definition DecodedLen (n : nat) : nat := n * 6 / 8.

(** [Encode]: the bytes written to [dst].  Full groups of three bytes
    give four characters; a remainder of one byte gives two characters
    and a remainder of two bytes gives three (there is no padding). *)
Fixpoint Encode (src : bytes) : bytes :=
  match src with
  | [] => []
  | [a] =>
      let val := N.shiftl (uint a) 16 in
      [ encode_tab (N.land (N.shiftr val 18) 63);
        encode_tab (N.land (N.shiftr val 12) 63) ]
  | [a; b] =>
      let val := N.lor (N.shiftl (uint a) 16) (N.shiftl (uint b) 8) in
      [ encode_tab (N.land (N.shiftr val 18) 63);
        encode_tab (N.land (N.shiftr val 12) 63);
        encode_tab (N.land (N.shiftr val 6) 63) ]
  | a :: b :: c :: rest =>
      let val := N.lor (N.lor (N.shiftl (uint a) 16) (N.shiftl (uint b) 8))
                       (uint c) in
      encode_tab (N.land (N.shiftr val 18) 63)
        :: encode_tab (N.land (N.shiftr val 12) 63)
        :: encode_tab (N.land (N.shiftr val 6) 63)
        :: encode_tab (N.land val 63)
        :: Encode rest
  end.

(** The decoder skips ['\r'] and ['\n'] wherever they stand. *)
Definition is_newline (c : byte) : bool :=
  Byte.eqb c x0a || Byte.eqb c x0d.

(** One quantum: the value assembled from up to four 6-bit digits and
    the [dlen - 1] bytes taken from it. *)
Definition quantum_val (d0 d1 d2 d3 : N) : N :=
  N.lor (N.lor (N.lor (N.shiftl d0 18) (N.shiftl d1 12)) (N.shiftl d2 6)) d3.

(** The quanta of a sequence of characters that has no newline left.
    [None] is [CorruptInputError]: a character outside the alphabet
    (['='] included, as the encoding has no padding), or a single
    character left over at the end. *)
Fixpoint decode_quanta (src : bytes) : option bytes :=
  match src with
  | [] => Some []
  | [_] => None
  | [c0; c1] =>
      let d0 := decodeMap c0 in
      let d1 := decodeMap c1 in
      if (d0 =? 255) || (d1 =? 255) then None
      else
        let val := quantum_val d0 d1 0 0 in
        Some [byte_of_uint (N.shiftr val 16)]
  | [c0; c1; c2] =>
      let d0 := decodeMap c0 in
      let d1 := decodeMap c1 in
      let d2 := decodeMap c2 in
      if (d0 =? 255) || (d1 =? 255) || (d2 =? 255) then None
      else
        let val := quantum_val d0 d1 d2 0 in
        Some [byte_of_uint (N.shiftr val 16); byte_of_uint (N.shiftr val 8)]
  | c0 :: c1 :: c2 :: c3 :: rest =>
      let d0 := decodeMap c0 in
      let d1 := decodeMap c1 in
      let d2 := decodeMap c2 in
      let d3 := decodeMap c3 in
      if (d0 =? 255) || (d1 =? 255) || (d2 =? 255) || (d3 =? 255) then None
      else
        let val := quantum_val d0 d1 d2 d3 in
        match decode_quanta rest with
        | None => None
        | Some out =>
            Some (byte_of_uint (N.shiftr val 16)
                    :: byte_of_uint (N.shiftr val 8)
                    :: byte_of_uint val :: out)
        end
  end.

(** [Decode]: the bytes written to [dst], or [None] for
    [CorruptInputError]. *)
Definition Decode (src : bytes) : option bytes :=
  decode_quanta (List.filter (fun c => negb (is_newline c)) src).

End base64.

(** A digit of the alphabet decodes to itself and is neither ['#'] nor a
    newline. *)
Definition tab_ok (i : N) : bool :=
  (base64.decodeMap (base64.encode_tab i) =? i)
  && negb (Byte.eqb (base64.encode_tab i) hash)
  && negb (base64.is_newline (base64.encode_tab i)).

(** The characters of the alphabet. *)
Inductive alphabet : byte -> Prop :=
| alphabet_tab d : d < 64 -> alphabet (base64.encode_tab d).

(** ** Slices *)

(** [make([]byte, n)] *)
Definition make (n : nat) : bytes := replicate n x00.

(** [copy(dst[off:], src)] seen from [dst]: as many bytes of [src] as
    fit are written from position [off] on. *)
Definition copy_at (dst : bytes) (off : nat) (src : bytes) : bytes :=
  take off dst ++ take (length dst - off) src ++ drop (off + length src) dst.

(** [bytes.HasPrefix(s, prefix)] *)
Fixpoint HasPrefix (s prefix : bytes) {struct prefix} : bool :=
  match prefix, s with
  | [], _ => true
  | _ :: _, [] => false
  | p :: prefix', c :: s' => Byte.eqb c p && HasPrefix s' prefix'
  end.

(** [bytes.Index(s, sep)]: the index of the first instance of [sep] in
    [s], or [-1]. *)
Fixpoint Index (s sep : bytes) : Z :=
  if HasPrefix s sep then 0%Z
  else match s with
       | [] => (-1)%Z
       | _ :: s' =>
           let i := Index s' sep in
           if (i =? -1)%Z then (-1)%Z else (i + 1)%Z
       end.

(** ** Errors and results *)

Inductive error : Type :=
| ErrDataKeyNotFound                      (* models.ErrDataKeyNotFound *)
| Errorf (msg : string)                   (* fmt.Errorf without %w, errors.New *)
| CorruptInputError                       (* base64.CorruptInputError *)
| Wrap (msg : string) (cause : error).    (* fmt.Errorf with %w *)

Fixpoint error_eqb (e1 e2 : error) : bool :=
  match e1, e2 with
  | ErrDataKeyNotFound, ErrDataKeyNotFound => true
  | Errorf m1, Errorf m2 => String.eqb m1 m2
  | CorruptInputError, CorruptInputError => true
  | Wrap m1 c1, Wrap m2 c2 => String.eqb m1 m2 && error_eqb c1 c2
  | _, _ => false
  end.

(** [errors.Is(err, target)]: [err] or an error it wraps is [target]. *)
Fixpoint errors_Is (err target : error) : bool :=
  error_eqb err target
  || match err with
     | Wrap _ cause => errors_Is cause target
     | _ => false
     end.

(** What a call yields: a value, an error, or a run-time panic. *)
Inductive outcome (A : Type) : Type :=
| Ok (a : A)
| Err (e : error)
| Panic (msg : string).
Arguments Ok {A} a.
Arguments Err {A} e.
Arguments Panic {A} msg.

(** ** Time *)

(** A [time.Time] is the number of nanoseconds since the zero [Time]; a
    [time.Duration] is a number of nanoseconds. *)
Module time.
Abbreviation Time := Z.
Definition Second : Z := 1000000000.
Definition Minute : Z := 60 * Second.
Definition IsZero (t : Time) : bool := (t =? 0)%Z.
Definition Before (t u : Time) : bool := (t <? u)%Z.
Definition Add (t : Time) (d : Z) : Time := (t + d)%Z.
End time.

(** ** [models.DataKey] *)

Module models.
Record DataKey : Type := {
  Active : bool;
  Name : string;
  Provider : string;
  EncryptedData : bytes;
}.
End models.

(** ** The service *)

(** [type Provider interface]: the methods are functions of the blob
    (and, to encrypt, of the random bytes drawn). *)
Record Provider : Type := {
  Provider_Encrypt : bytes -> bytes -> outcome bytes;  (* random bytes, blob *)
  Provider_Decrypt : bytes -> outcome bytes;
}.

(** [type dataKeyCacheItem struct] (its field [dataKey] is
    [item_dataKey] here, [dataKey] being the method of [Secrets]). *)
Record dataKeyCacheItem : Type := {
  expiry : time.Time;
  item_dataKey : bytes;
}.

(** [type Secrets struct].  The handles [store] and [bus] are the world
    below.  A Go map is [nil] until it is made: it reads as an empty map,
    [delete] leaves it alone, and an assignment to an entry panics.
    [providers] is only read and assigned as a whole, so it is a map;
    [dataKeyCache] is written by entry and [None] is the [nil] map. *)
Record Secrets : Type := {
  defaultEncryptionKey : string;
  defaultProvider : string;
  providers : gmap string Provider;
  dataKeyCache : option (gmap string dataKeyCacheItem);
}.

(** What the service does to the outside, in the order it does it. *)
Inductive event : Type :=
| EvGetDataKey (name : string)
| EvCreateDataKey (rec : models.DataKey)
| EvProviderDecrypt (id : string) (blob : bytes).

(** The world around the service: the table of data keys behind
    [sqlstore], the errors its calls meet (a deadline that passes, a
    connection that drops), the clock, the random source, and the global
    function variables of package [util]. *)
Record World : Type := {
  records : gmap string models.DataKey;
  store_fault : nat -> option error;   (* the error of the n-th store call *)
  store_calls : nat;
  clock : nat -> time.Time;            (* the n-th reading of time.Now() *)
  clock_reads : nat;
  rand_src : nat -> outcome bytes;     (* the n-th read of crypto/rand *)
  rand_reads : nat;
  cipher_rand : nat -> bytes;          (* salt and nonce of the n-th encrypt *)
  cipher_calls : nat;
  trace : list event;
  util_bound : bool;                   (* util.Encrypt, util.Decrypt are set *)
}.

Record State : Type := {
  svc : Secrets;
  world : World;
}.

Definition with_svc (f : Secrets -> Secrets) (st : State) : State :=
  {| svc := f (svc st); world := world st |}.

Definition with_world (f : World -> World) (st : State) : State :=
  {| svc := svc st; world := f (world st) |}.

(** *** Computations: state passing with errors and panics *)

Definition M (A : Type) : Type := State -> outcome A * State.

Definition ret {A} (a : A) : M A := fun st => (Ok a, st).

Definition bind {A B} (m : M A) (k : A -> M B) : M B :=
  fun st =>
    match m st with
    | (Ok a, st') => k a st'
    | (Err e, st') => (Err e, st')
    | (Panic msg, st') => (Panic msg, st')
    end.

Notation "x <- m ;; k" := (bind m (fun x => k))
  (at level 20, m at level 99, k at level 200, format "x  <-  m  ;;  '/' k").
Notation "'do' m ;; k" := (bind m (fun _ => k))
  (at level 20, m at level 99, k at level 200, format "'do'  m  ;;  '/' k").

(** [return nil, err] *)
Definition fail {A} (e : error) : M A := fun st => (Err e, st).

(** A call of a function that has no effect: [v, err := f(...)] followed
    by [if err != nil { return nil, err }]. *)
Definition lift {A} (r : outcome A) : M A := fun st => (r, st).

(** [v, err := f(...)] where the caller looks at [err] itself. *)
Definition attempt {A} (m : M A) : M (outcome A) :=
  fun st =>
    match m st with
    | (Panic msg, st') => (Panic msg, st')
    | (r, st') => (Ok r, st')
    end.

Definition gets {A} (f : Secrets -> A) : M A := fun st => (Ok (f (svc st)), st).

Definition modify (f : Secrets -> Secrets) : M unit :=
  fun st => (Ok tt, with_svc f st).

Definition emit (e : event) (w : World) : World :=
  {| records := records w; store_fault := store_fault w;
     store_calls := store_calls w; clock := clock w;
     clock_reads := clock_reads w; rand_src := rand_src w;
     rand_reads := rand_reads w; cipher_rand := cipher_rand w;
     cipher_calls := cipher_calls w; trace := trace w ++ [e];
     util_bound := util_bound w |}.

Definition count_store_call (w : World) : World :=
  {| records := records w; store_fault := store_fault w;
     store_calls := S (store_calls w); clock := clock w;
     clock_reads := clock_reads w; rand_src := rand_src w;
     rand_reads := rand_reads w; cipher_rand := cipher_rand w;
     cipher_calls := cipher_calls w; trace := trace w;
     util_bound := util_bound w |}.

Definition set_records (m : gmap string models.DataKey) (w : World) : World :=
  {| records := m; store_fault := store_fault w;
     store_calls := store_calls w; clock := clock w;
     clock_reads := clock_reads w; rand_src := rand_src w;
     rand_reads := rand_reads w; cipher_rand := cipher_rand w;
     cipher_calls := cipher_calls w; trace := trace w;
     util_bound := util_bound w |}.

Definition count_clock_read (w : World) : World :=
  {| records := records w; store_fault := store_fault w;
     store_calls := store_calls w; clock := clock w;
     clock_reads := S (clock_reads w); rand_src := rand_src w;
     rand_reads := rand_reads w; cipher_rand := cipher_rand w;
     cipher_calls := cipher_calls w; trace := trace w;
     util_bound := util_bound w |}.

Definition count_rand_read (w : World) : World :=
  {| records := records w; store_fault := store_fault w;
     store_calls := store_calls w; clock := clock w;
     clock_reads := clock_reads w; rand_src := rand_src w;
     rand_reads := S (rand_reads w); cipher_rand := cipher_rand w;
     cipher_calls := cipher_calls w; trace := trace w;
     util_bound := util_bound w |}.

Definition count_cipher_call (w : World) : World :=
  {| records := records w; store_fault := store_fault w;
     store_calls := store_calls w; clock := clock w;
     clock_reads := clock_reads w; rand_src := rand_src w;
     rand_reads := rand_reads w; cipher_rand := cipher_rand w;
     cipher_calls := S (cipher_calls w); trace := trace w;
     util_bound := util_bound w |}.

Definition bind_util (w : World) : World :=
  {| records := records w; store_fault := store_fault w;
     store_calls := store_calls w; clock := clock w;
     clock_reads := clock_reads w; rand_src := rand_src w;
     rand_reads := rand_reads w; cipher_rand := cipher_rand w;
     cipher_calls := cipher_calls w; trace := trace w;
     util_bound := true |}.

Definition set_providers (m : gmap string Provider) (s : Secrets) : Secrets :=
  {| defaultEncryptionKey := defaultEncryptionKey s;
     defaultProvider := defaultProvider s;
     providers := m;
     dataKeyCache := dataKeyCache s |}.

Definition set_dataKeyCache (c : option (gmap string dataKeyCacheItem))
    (s : Secrets) : Secrets :=
  {| defaultEncryptionKey := defaultEncryptionKey s;
     defaultProvider := defaultProvider s;
     providers := providers s;
     dataKeyCache := c |}.

(** *** The store *)

(** Modelled from the spec: [sqlstore.SQLStore.GetDataKey], which is not
    among the sources.  The call fails with the error it meets, if any;
    otherwise it yields the record of that name, and fails with
    [models.ErrDataKeyNotFound] when there is none. *)
Definition store_GetDataKey (name : string) : M models.DataKey :=
  fun st =>
    let w := world st in
    let st' := with_world (fun w => emit (EvGetDataKey name) (count_store_call w)) st in
    match store_fault w (store_calls w) with
    | Some e => (Err e, st')
    | None =>
        match records w !! name with
        | Some rec => (Ok rec, st')
        | None => (Err ErrDataKeyNotFound, st')
        end
    end.

(** Modelled from the spec: [sqlstore.SQLStore.CreateDataKey], which is
    not among the sources.  The call fails with the error it meets, if
    any, and then stores nothing; a record is created once per name. *)
Definition store_CreateDataKey (rec : models.DataKey) : M unit :=
  fun st =>
    let w := world st in
    let st' := with_world (fun w => emit (EvCreateDataKey rec) (count_store_call w)) st in
    match store_fault w (store_calls w) with
    | Some e => (Err e, st')
    | None =>
        match records w !! models.Name rec with
        | Some _ => (Err (Errorf "data key already exists"), st')
        | None =>
            (Ok tt, with_world (set_records (<[models.Name rec := rec]> (records w))) st')
        end
    end.

(** *** Clock and random source *)

(** [time.Now()] *)
Definition time_Now : M time.Time :=
  fun st =>
    (Ok (clock (world st) (clock_reads (world st))),
     with_world count_clock_read st).

(** [b := make([]byte, n)] followed by [rand.Read(b)]. *)
Definition rand_Read (n : nat) : M bytes :=
  fun st =>
    let st' := with_world count_rand_read st in
    match rand_src (world st) (rand_reads (world st)) with
    | Ok r => (Ok (copy_at (make n) 0 r), st')
    | Err e => (Err e, st')
    | Panic msg => (Panic msg, st')
    end.

(** [util.Encrypt = s.Encrypt] and [util.Decrypt = s.Decrypt] *)
Definition util_set : M unit :=
  fun st => (Ok tt, with_world bind_util st).

(** *** The data key cache *)

(** [item, exists := s.dataKeyCache[key]] *)
Definition cache_get (key : string) : M (option dataKeyCacheItem) :=
  gets (fun s => match dataKeyCache s with
                 | Some c => c !! key
                 | None => None
                 end).

(** [delete(s.dataKeyCache, key)] *)
Definition cache_delete (key : string) : M unit :=
  modify (fun s => set_dataKeyCache (delete key <$> dataKeyCache s) s).

(** [s.dataKeyCache[key] = item] *)
Definition cache_set (key : string) (item : dataKeyCacheItem) : M unit :=
  fun st =>
    match dataKeyCache (svc st) with
    | Some c => (Ok tt, with_svc (set_dataKeyCache (Some (<[key := item]> c))) st)
    | None => (Panic "assignment to entry in nil map", st)
    end.

(** *** What is said about a run *)

(** The test of [dataKey] on a cached item: it has expired at [now]. *)
Definition expired (item : dataKeyCacheItem) (now : time.Time) : bool :=
  time.Before (expiry item) now && negb (time.IsZero (expiry item)).

(** The entry of [key] in the cache of a state. *)
Definition cached (st : State) (key : string) : option dataKeyCacheItem :=
  match dataKeyCache (svc st) with
  | Some c => c !! key
  | None => None
  end.

(** The next reading of the clock in a state. *)
Definition next_now (st : State) : time.Time :=
  clock (world st) (clock_reads (world st)).

(** The error that the next call of the store meets in a state. *)
Definition next_fault (st : State) : option error :=
  store_fault (world st) (store_calls (world st)).

(** The state after the call [GetDataKey(name)] of the store. *)
Definition after_GetDataKey (name : string) (st : State) : State :=
  with_world (fun w => emit (EvGetDataKey name) (count_store_call w)) st.

Definition is_fetch (e : event) : bool :=
  match e with EvGetDataKey _ => true | _ => false end.

Definition is_create (e : event) : bool :=
  match e with EvCreateDataKey _ => true | _ => false end.

Definition is_provider_decrypt (e : event) : bool :=
  match e with EvProviderDecrypt _ _ => true | _ => false end.

(** How many events of a kind a trace holds. *)
Definition count (kind : event -> bool) (tr : list event) : nat :=
  length (List.filter kind tr).
Arguments count : simpl never.

(** [st'] comes after [st] without a write to the store: the records are
    the same, the errors the store is to meet are the same, and the
    events that were added hold no [CreateDataKey]. *)
Definition store_untouched (st st' : State) : Prop :=
  records (world st') = records (world st)
  /\ store_fault (world st') = store_fault (world st)
  /\ exists evs, trace (world st') = trace (world st) ++ evs
                 /\ forallb (fun e => negb (is_create e)) evs = true.

(** A computation that never writes to the store. *)
Definition reads_store_only {A} (m : M A) : Prop :=
  forall st, store_untouched st (snd (m st)).

(** A computation that keeps a relation between the state before it and
    the state after it. *)
Definition keeps (R : State -> State -> Prop) {A} (m : M A) : Prop :=
  forall st, R st (snd (m st)).

(** What the methods other than [Init] leave alone from [st] to [st']:
    the name of the key to encrypt under, the default provider, the
    registry of providers, whether the cache has been made, and the
    function variables of package [util]. *)
Definition service_kept (st st' : State) : Prop :=
  defaultEncryptionKey (svc st') = defaultEncryptionKey (svc st)
  /\ defaultProvider (svc st') = defaultProvider (svc st)
  /\ providers (svc st') = providers (svc st)
  /\ (dataKeyCache (svc st') = None <-> dataKeyCache (svc st) = None)
  /\ util_bound (world st') = util_bound (world st).

(** A computation that keeps a property of the state, whatever it
    returns. *)
Definition preserves (I : State -> Prop) {A} (m : M A) : Prop :=
  forall st, I st -> I (snd (m st)).

(** The cache holds what was fetched: no provider is registered under
    an id other than [""], and every name in the cache has a record in
    the store whose provider is registered. *)
Definition cache_sound (st : State) : Prop :=
  (forall id, is_Some (providers (svc st) !! id) -> id = "")
  /\ forall key item,
       cached st key = Some item ->
       exists rec,
         records (world st) !! key = Some rec
         /\ is_Some (providers (svc st) !! models.Provider rec).

(** ** A cipher and a world to run the service in *)

Module example.

(** A keyed cipher that opens what it has sealed: the sealed message is
    the secret followed by the payload, and opening checks the secret. *)
Definition encrypt (r payload secret : bytes) : outcome bytes :=
  Ok (secret ++ payload).

Definition decrypt (payload secret : bytes) : outcome bytes :=
  if HasPrefix payload secret then Ok (drop (length secret) payload)
  else Err (Errorf "cipher: message authentication failed").

Definition SecretKey : string := "SW2YcwTIb9zpOOhoPsMm".

(** The provider under the configured secret. *)
Definition static : Provider :=
  {| Provider_Encrypt := fun r blob => encrypt r blob (list_byte_of_string SecretKey);
     Provider_Decrypt := fun blob => decrypt blob (list_byte_of_string SecretKey) |}.

(** The data key behind the record "k", and the record. *)
Definition key_k : bytes := list_byte_of_string "0123456789abcdef".

Definition record_k (provider : string) : models.DataKey :=
  {| models.Active := true;
     models.Name := "k";
     models.Provider := provider;
     models.EncryptedData := list_byte_of_string SecretKey ++ key_k |}.

(** A world with the given records, store errors and clock. *)
Definition world_of (recs : gmap string models.DataKey)
    (fault : nat -> option error) (clk : nat -> time.Time) : World :=
  {| records := recs;
     store_fault := fault;
     store_calls := 0;
     clock := clk;
     clock_reads := 0;
     rand_src := fun _ => Ok key_k;
     rand_reads := 0;
     cipher_rand := fun _ => [];
     cipher_calls := 0;
     trace := [];
     util_bound := false |}.

Definition no_fault : nat -> option error := fun _ => None.

(** A service that encrypts under the data key of the given name. *)
Definition secrets_of (key : string)
    (cache : option (gmap string dataKeyCacheItem)) : Secrets :=
  {| defaultEncryptionKey := key;
     defaultProvider := "";
     providers := {[ "" := static ]};
     dataKeyCache := cache |}.

(** A clock that reads one second, then two, then seventeen minutes. *)
Definition clock_3 (n : nat) : time.Time :=
  match n with
  | 0%nat => time.Second
  | 1%nat => 2 * time.Second
  | _ => 17 * time.Minute
  end.

(** The service under the empty key name, in an empty world. *)
Definition st_static : State :=
  {| svc := secrets_of "" None;
     world := world_of ∅ no_fault clock_3 |}.

(** The service under the data key "k", which the store holds. *)
Definition st_k : State :=
  {| svc := secrets_of "k" (Some ∅);
     world := world_of {[ "k" := record_k "" ]} no_fault clock_3 |}.

(** The record "k" names the provider "kms", which is not registered,
    and the cache holds an entry of "k" that has long expired. *)
Definition st_kms : State :=
  {| svc := secrets_of ""
              (Some {[ "k" := {| expiry := 1; item_dataKey := key_k |} ]});
     world := world_of {[ "k" := record_k "kms" ]} no_fault clock_3 |}.

(** A store whose every call meets a deadline. *)
Definition st_down : State :=
  {| svc := secrets_of "" (Some ∅);
     world := world_of ∅ (fun _ => Some (Errorf "context deadline exceeded")) clock_3 |}.

(** A store whose second call meets a deadline, and no other. *)
Definition st_flaky : State :=
  {| svc := secrets_of "" (Some ∅);
     world := world_of ∅
                (fun n => if Nat.eqb n 1 then Some (Errorf "context deadline exceeded")
                          else None)
                clock_3 |}.

(** Bytes that are no UTF-8 text. *)
Definition payload : bytes := [xff; x00; xc3; x28].

(** The record "k" with encrypted data that the provider cannot open. *)
Definition record_bad : models.DataKey :=
  {| models.Active := true;
     models.Name := "k";
     models.Provider := "";
     models.EncryptedData := list_byte_of_string "garbage" |}.

Definition st_bad : State :=
  {| svc := secrets_of "k" (Some ∅);
     world := world_of {[ "k" := record_bad ]} no_fault clock_3 |}.

(** The cache holds an entry of "k" with the zero expiry. *)
Definition st_zero : State :=
  {| svc := secrets_of "k"
              (Some {[ "k" := {| expiry := 0; item_dataKey := key_k |} ]});
     world := world_of ∅ no_fault clock_3 |}.

(** The service under the data key "k", with a cache that was never
    made. *)
Definition st_nil : State :=
  {| svc := secrets_of "k" None;
     world := world_of {[ "k" := record_k "" ]} no_fault clock_3 |}.

(** The service under a data key that the store does not hold. *)
Definition st_missing : State :=
  {| svc := secrets_of "missing" (Some ∅);
     world := world_of {[ "k" := record_k "" ]} no_fault clock_3 |}.

(** A key name in base64 with its padding, and one broken by two line
    feeds. *)
Definition b64_padded : bytes := list_byte_of_string "a3M=".
Definition b64_folded : bytes := [x61; x77; x0a; x0a].

(** The service with the default provider "kms", in an empty world. *)
Definition st_default_kms : State :=
  {| svc := {| defaultEncryptionKey := "";
               defaultProvider := "kms";
               providers := {[ "" := static ]};
               dataKeyCache := Some ∅ |};
     world := world_of ∅ no_fault clock_3 |}.

(** A cipher that fails to seal. *)
Definition encrypt_fails (r payload secret : bytes) : outcome bytes :=
  Err (Errorf "cipher: invalid key size").

(** The zero value of the service, as it is before [Init]: no key name,
    no provider, and maps that were never made; the store holds the
    record "k". *)
Definition st_fresh : State :=
  {| svc := {| defaultEncryptionKey := "";
               defaultProvider := "";
               providers := ∅;
               dataKeyCache := None |};
     world := world_of {[ "k" := record_k "" ]} no_fault clock_3 |}.

(** The service under the data key "k", with a cache that was made and
    a store whose fourth call meets a deadline, and no other. *)
Definition st_lapse : State :=
  {| svc := secrets_of "k" (Some ∅);
     world := world_of {[ "k" := record_k "" ]}
                (fun n => if Nat.eqb n 3 then Some (Errorf "context deadline exceeded")
                          else None)
                clock_3 |}.

(** The record "k" names the provider "kms", and the cache is empty. *)
Definition st_unknown : State :=
  {| svc := secrets_of "" (Some ∅);
     world := world_of {[ "k" := record_k "kms" ]} no_fault clock_3 |}.

End example.

Section Secrets.

Set Default Proof Using "Type".

(** [setting.SecretKey] *)
Variable SecretKey : string.

(** The cipher of the package, [encrypt(payload, secret)] and
    [decrypt(payload, secret)], which are not among the sources:
    [encrypt] is a function of the random bytes it draws, of the
    payload and of the secret. *)
Variable encrypt : bytes -> bytes -> bytes -> outcome bytes.
Variable decrypt : bytes -> bytes -> outcome bytes.

(** A call [encrypt(payload, secret)]. *)
Definition call_encrypt (payload secret : bytes) : M bytes :=
  fun st =>
    (encrypt (cipher_rand (world st) (cipher_calls (world st))) payload secret,
     with_world count_cipher_call st).

(** Modelled from the spec: the type [secretKey], the provider that
    [Init] registers under the id [""], is not among the sources; its
    [Encrypt] and [Decrypt] both work under the configured secret. *)
Definition secretKey (key : unit -> bytes) : Provider :=
  {| Provider_Encrypt := fun r blob => encrypt r blob (key tt);
     Provider_Decrypt := fun blob => decrypt blob (key tt) |}.

(** [provider.Decrypt(blob)] *)
Definition call_Provider_Decrypt (id : string) (p : Provider) (blob : bytes)
  : M bytes :=
  fun st =>
    (Provider_Decrypt p blob, with_world (emit (EvProviderDecrypt id blob)) st).

(** [func (s *Secrets) dataKey(key string) ([]byte, error)] *)
Definition dataKey (key : string) : M bytes :=
  if String.eqb key "" then ret (list_byte_of_string SecretKey)
  else
    cached <- (item <- cache_get key ;;
               match item with
               | Some item =>
                   now <- time_Now ;;
                   if time.Before (expiry item) now && negb (time.IsZero (expiry item))
                   then do cache_delete key ;; ret None
                   else ret (Some (item_dataKey item))
               | None => ret None
               end) ;;
    match cached with
    | Some k => ret k
    | None =>
        (* 1. get encrypted data key from database *)
        rec <- store_GetDataKey key ;;
        (* 2. decrypt data key *)
        provider <- (p <- gets (fun s => providers s !! models.Provider rec) ;;
                     match p with
                     | Some provider => ret provider
                     | None =>
                         fail (Errorf ("could not find encryption provider '"
                                       ++ models.Provider rec ++ "'"))
                     end) ;;
        decrypted <- call_Provider_Decrypt (models.Provider rec) provider
                       (models.EncryptedData rec) ;;
        (* 3. cache data key *)
        now <- time_Now ;;
        do cache_set key {| expiry := time.Add now (15 * time.Minute);
                            item_dataKey := decrypted |} ;;
        ret decrypted
    end.

(** [func (s *Secrets) Encrypt(payload []byte) ([]byte, error)] *)
Definition Encrypt (payload : bytes) : M bytes :=
  key <- gets defaultEncryptionKey ;;
  dataKey <- dataKey key ;;
  encrypted <- call_encrypt payload dataKey ;;
  let prefix := make (base64.EncodedLen (length (list_byte_of_string key)) + 2) in
  let prefix := copy_at prefix 1 (base64.Encode (list_byte_of_string key)) in
  let prefix := <[0%nat := hash]> prefix in
  let prefix := <[(length prefix - 1)%nat := hash]> prefix in
  let blob := make (length prefix + length encrypted) in
  let blob := copy_at blob 0 prefix in
  let blob := copy_at blob (length prefix) encrypted in
  ret blob.

(** [func (s *Secrets) Decrypt(payload []byte) ([]byte, error)] *)
Definition Decrypt (payload : bytes) : M bytes :=
  match payload with
  | [] => ret []
  | first :: _ =>
      if negb (Byte.eqb first hash) then
        lift (decrypt payload (list_byte_of_string SecretKey))
      else
        let payload := drop 1 payload in
        let endOfKey := Index payload [hash] in
        if (endOfKey =? -1)%Z then
          fail (Errorf "could not find valid key in encrypted payload")
        else
          let b64Key := take (Z.to_nat endOfKey) payload in
          let payload := drop (Z.to_nat (endOfKey + 1)) payload in
          let key := make (base64.DecodedLen (length b64Key)) in
          match base64.Decode b64Key with
          | None => fail CorruptInputError
          | Some decoded =>
              let key := copy_at key 0 decoded in
              dataKey <- dataKey (string_of_list_byte key) ;;
              lift (decrypt payload dataKey)
          end
  end.

(** [func (s *Secrets) newRandomDataKey(ctx context.Context, base_key string) error] *)
Definition newRandomDataKey (base_key : string) : M unit :=
  b <- rand_Read 16 ;;
  encrypted <- Encrypt b ;;
  provider <- gets defaultProvider ;;
  err <- attempt (store_CreateDataKey
                    {| models.Active := true;
                       models.Name := base_key;
                       models.Provider := provider;
                       models.EncryptedData := encrypted |}) ;;
  ret tt.

(** [func (s *Secrets) Init() error] *)
Definition Init : M unit :=
  do modify (set_providers
               {[ "" := secretKey (fun _ => list_byte_of_string SecretKey) ]}) ;;
  let base_key := "root" in
  r <- attempt (store_GetDataKey base_key) ;;
  do match r with
     | Err err =>
         if errors_Is err ErrDataKeyNotFound then newRandomDataKey base_key
         else fail err
     | Ok _ => ret tt
     | Panic msg => lift (Panic msg)
     end ;;
  do util_set ;;
  ret tt.

(** The part of [dataKey] that follows the look into the cache: steps
    1 to 3, for a name that the cache does not answer. *)
Definition dataKey_fetch (key : string) : M bytes :=
  rec <- store_GetDataKey key ;;
  provider <- (p <- gets (fun s => providers s !! models.Provider rec) ;;
               match p with
               | Some provider => ret provider
               | None =>
                   fail (Errorf ("could not find encryption provider '"
                                 ++ models.Provider rec ++ "'"))
               end) ;;
  decrypted <- call_Provider_Decrypt (models.Provider rec) provider
                 (models.EncryptedData rec) ;;
  now <- time_Now ;;
  do cache_set key {| expiry := time.Add now (15 * time.Minute);
                      item_dataKey := decrypted |} ;;
  ret decrypted.

(** The three ways through [Decrypt], by its two tests
    [len(payload) == 0] and [payload[0] != '#']. *)
Inductive route : Type := Shortcut | Legacy | Envelope.

Definition Decrypt_route (payload : bytes) : route :=
  match payload with
  | [] => Shortcut
  | first :: _ => if negb (Byte.eqb first hash) then Legacy else Envelope
  end.

(** The data key that [newRandomDataKey] hands to the store. *)
Definition new_DataKey (base_key : string) (st : State) (encrypted : bytes)
  : models.DataKey :=
  {| models.Active := true;
     models.Name := base_key;
     models.Provider := defaultProvider (svc st);
     models.EncryptedData := encrypted |}.

(** The service with the providers that [Init] registers. *)
Definition registered (st : State) : State :=
  with_svc
    (set_providers {[ "" := secretKey (fun _ => list_byte_of_string SecretKey) ]})
    st.

(** The states of a run.  The service starts with no entry in its
    cache (a map that is [nil], or made and empty) and with no provider
    under an id other than [""]: [providers] is assigned at one place,
    in [Init], and an entry of the cache at one place, in [dataKey].
    Then the methods are called, in any order, with any arguments and
    with any outcome; the table of the store is written by the service. *)
Inductive reached : State -> Prop :=
| reached_start (st : State) :
    (forall key, cached st key = None) ->
    (forall id, is_Some (providers (svc st) !! id) -> id = "") ->
    reached st
| reached_Init (st : State) :
    reached st -> reached (snd (Init st))
| reached_Encrypt (payload : bytes) (st : State) :
    reached st -> reached (snd (Encrypt payload st))
| reached_Decrypt (payload : bytes) (st : State) :
    reached st -> reached (snd (Decrypt payload st))
| reached_dataKey (key : string) (st : State) :
    reached st -> reached (snd (dataKey key st)).

(** * Properties *)

(** The parameters a statement does not mention are left out of its
    proof. *)
Ltac tidy := try clear decrypt; try clear encrypt; try clear SecretKey.

Import base64.

(** ** [RawStdEncoding] decodes what it encodes *)

(** Bits that do not overlap: [|] is [+]. *)
Lemma lor_low (x y : N) (k : N) :
  x mod 2 ^ k = 0 -> y < 2 ^ k -> N.lor x y = x + y.
Proof.
  intros Hx Hy.
  rewrite N.add_nocarry_lxor, N.lxor_lor; try reflexivity.
  all: apply N.bits_inj; intros n; rewrite N.land_spec, N.bits_0.
  all: destruct (N.lt_ge_cases n k) as [Hn|Hn].
  all: try (rewrite <- (N.mod_pow2_bits_low x k n Hn), Hx, N.bits_0; reflexivity).
  all: rewrite <- (N.mod_small y (2^k) Hy), N.mod_pow2_bits_high by assumption.
  all: apply andb_false_r.
Qed.

Lemma uint_lt (b : byte) : uint b < 256.
Proof. unfold uint. pose proof (Byte.to_N_bounded b). lia. Qed.

Lemma byte_of_uint_uint b : byte_of_uint (uint b) = b.
Proof.
  unfold byte_of_uint. rewrite N.mod_small by apply uint_lt.
  unfold uint. now rewrite Byte.of_to_N.
Qed.

(** The 64 digits, one by one. *)
Lemma tab_ok_all i : i < 64 -> tab_ok i = true.
Proof.
  intros Hi. destruct i as [|p]; [reflexivity|].
  do 6 (destruct p as [p|p|]; try reflexivity); lia.
Qed.

Lemma lor_add (k q x y : N) :
  x = q * 2 ^ k -> y < 2 ^ k -> N.lor x y = x + y.
Proof.
  intros -> Hy. apply (lor_low _ _ k); [apply N.Div0.mod_mul | exact Hy].
Qed.

(** The value of a quantum and of a group of three bytes, as sums. *)
Lemma quantum_val_eq (d0 d1 d2 d3 : N) :
  d1 < 64 -> d2 < 64 -> d3 < 64 ->
  quantum_val d0 d1 d2 d3 = d0 * 262144 + d1 * 4096 + d2 * 64 + d3.
Proof.
  intros H1 H2 H3. unfold quantum_val. rewrite !N.shiftl_mul_pow2.
  rewrite (lor_add 18 d0 (d0 * 2 ^ 18) (d1 * 2 ^ 12)) by lia.
  rewrite (lor_add 12 (d0 * 64 + d1) _ (d2 * 2 ^ 6)) by lia.
  rewrite (lor_add 6 (d0 * 4096 + d1 * 64 + d2) _ d3) by lia.
  lia.
Qed.

Lemma group_val_eq (a b c : N) :
  b < 256 -> c < 256 ->
  N.lor (N.lor (N.shiftl a 16) (N.shiftl b 8)) c = a * 65536 + b * 256 + c.
Proof.
  intros Hb Hc. rewrite !N.shiftl_mul_pow2.
  rewrite (lor_add 16 a (a * 2 ^ 16) (b * 2 ^ 8)) by lia.
  rewrite (lor_add 8 (a * 256 + b) _ c) by lia.
  lia.
Qed.

Lemma digit_eq (v k : N) : N.land (N.shiftr v k) 63 = (v / 2 ^ k) mod 64.
Proof. change 63 with (N.ones 6). now rewrite N.land_ones, N.shiftr_div_pow2. Qed.

Lemma digit_lt (v : N) : N.land v 63 < 64.
Proof. change 63 with (N.ones 6). rewrite N.land_ones. apply N.mod_upper_bound. cbn; lia. Qed.

(** A value of 24 bits is the quantum of its four digits. *)
Lemma quantum_digits (v : N) :
  v < 16777216 ->
  quantum_val (N.land (N.shiftr v 18) 63) (N.land (N.shiftr v 12) 63)
              (N.land (N.shiftr v 6) 63) (N.land v 63) = v.
Proof.
  intros Hv. rewrite quantum_val_eq by apply digit_lt.
  rewrite <- (N.shiftr_0_r v) at 4. rewrite !digit_eq.
  change (2 ^ 18) with 262144. change (2 ^ 12) with 4096.
  change (2 ^ 6) with 64. change (2 ^ 0) with 1.
  zify; Z.to_euclidean_division_equations; lia.
Qed.

Lemma byte_of_uint_mod (v : N) (b : byte) :
  v mod 256 = uint b -> byte_of_uint v = b.
Proof.
  intros H. unfold byte_of_uint. rewrite H. unfold uint.
  now rewrite Byte.of_to_N.
Qed.

(** Three bytes come back from the value they make. *)
Lemma group3_roundtrip (a b c : byte) :
  let val := N.lor (N.lor (N.shiftl (uint a) 16) (N.shiftl (uint b) 8)) (uint c) in
  val < 16777216
  /\ byte_of_uint (N.shiftr val 16) = a
  /\ byte_of_uint (N.shiftr val 8) = b
  /\ byte_of_uint val = c.
Proof.
  intros val. unfold val. clear val.
  pose proof (uint_lt a) as Ha. pose proof (uint_lt b) as Hb.
  pose proof (uint_lt c) as Hc.
  rewrite group_val_eq by assumption.
  split; [lia|].
  rewrite !N.shiftr_div_pow2.
  change (2 ^ 16) with 65536. change (2 ^ 8) with 256.
  repeat split; apply byte_of_uint_mod.
  all: zify; Z.to_euclidean_division_equations; lia.
Qed.

Lemma tab_decode (d : N) : d < 64 -> decodeMap (encode_tab d) = d.
Proof.
  intros H. pose proof (tab_ok_all d H) as Hok. unfold tab_ok in Hok.
  apply andb_prop in Hok as [Hok _]. apply andb_prop in Hok as [Hok _].
  now apply N.eqb_eq.
Qed.

Lemma tab_not_hash (d : N) : d < 64 -> encode_tab d <> hash.
Proof.
  intros H. pose proof (tab_ok_all d H) as Hok. unfold tab_ok in Hok.
  apply andb_prop in Hok as [Hok _]. apply andb_prop in Hok as [_ Hok].
  apply Byte.eqb_false. now destruct (Byte.eqb (encode_tab d) hash).
Qed.

Lemma tab_not_newline (d : N) : d < 64 -> is_newline (encode_tab d) = false.
Proof.
  intros H. pose proof (tab_ok_all d H) as Hok. unfold tab_ok in Hok.
  apply andb_prop in Hok as [_ Hok].
  now destruct (is_newline (encode_tab d)).
Qed.

Lemma digit_valid (v : N) : (decodeMap (encode_tab (N.land v 63)) =? 255) = false.
Proof.
  rewrite tab_decode by apply digit_lt.
  apply N.eqb_neq. pose proof (digit_lt v). lia.
Qed.

(** Induction on a list three elements at a time, as [Encode] goes. *)
Section list_ind3.
Context {A : Type} (P : list A -> Prop).
Hypothesis P0 : P [].
Hypothesis P1 : forall a, P [a].
Hypothesis P2 : forall a b, P [a; b].
Hypothesis P3 : forall a b c l, P l -> P (a :: b :: c :: l).

Lemma list_ind3 : forall l, P l.
Proof using P0 P1 P2 P3.
  fix IH 1. intros [|a [|b [|c l]]].
  - exact P0.
  - apply P1.
  - apply P2.
  - apply P3, IH.
Qed.
End list_ind3.

(** Every character [Encode] writes is a character of the alphabet. *)
Lemma Encode_alphabet (src : bytes) : Forall alphabet (Encode src).
Proof.
  induction src as [|a|a b|a b c l IH] using list_ind3; cbn [Encode].
  all: repeat (constructor; [constructor; apply digit_lt|]); auto.
Qed.

(** [Encode] writes [EncodedLen] characters, and [DecodedLen] of that
    many characters is the length of the source. *)
Lemma Encode_length (src : bytes) :
  length (Encode src) = EncodedLen (length src).
Proof.
  tidy.
  induction src as [|a|a b|a b c l IH] using list_ind3; try reflexivity.
  cbn [Encode length]. rewrite IH. unfold EncodedLen.
  replace ((S (S (S (length l))) * 8 + 5))%nat with ((length l * 8 + 5) + 4 * 6)%nat by lia.
  rewrite Nat.div_add by lia. lia.
Qed.

Lemma DecodedLen_EncodedLen (n : nat) : DecodedLen (EncodedLen n) = n.
Proof.
  unfold DecodedLen, EncodedLen.
  zify. Z.to_euclidean_division_equations. lia.
Qed.

Lemma quantum_digits2 (v : N) :
  v < 16777216 -> v mod 4096 = 0 ->
  quantum_val (N.land (N.shiftr v 18) 63) (N.land (N.shiftr v 12) 63) 0 0 = v.
Proof.
  intros Hv Hm. rewrite <- (quantum_digits v Hv) at 3.
  f_equal.
  - rewrite digit_eq. change (2 ^ 6) with 64.
    zify; Z.to_euclidean_division_equations; lia.
  - rewrite <- (N.shiftr_0_r v) at 1. rewrite digit_eq. change (2 ^ 0) with 1.
    zify; Z.to_euclidean_division_equations; lia.
Qed.

Lemma quantum_digits3 (v : N) :
  v < 16777216 -> v mod 64 = 0 ->
  quantum_val (N.land (N.shiftr v 18) 63) (N.land (N.shiftr v 12) 63)
              (N.land (N.shiftr v 6) 63) 0 = v.
Proof.
  intros Hv Hm. rewrite <- (quantum_digits v Hv) at 4.
  f_equal.
  rewrite <- (N.shiftr_0_r v) at 1. rewrite digit_eq. change (2 ^ 0) with 1.
  zify; Z.to_euclidean_division_equations; lia.
Qed.

Lemma decode_quanta_Encode (src : bytes) :
  decode_quanta (Encode src) = Some src.
Proof.
  induction src as [|a|a b|a b c l IH] using list_ind3.
  - reflexivity.
  - cbn [Encode decode_quanta]. rewrite !digit_valid. cbn [orb].
    rewrite !tab_decode by apply digit_lt.
    destruct (group3_roundtrip a x00 x00) as (Hlt & Ha & _).
    change (uint x00) with 0 in Hlt, Ha. change (N.shiftl 0 8) with 0 in Hlt, Ha.
    rewrite !N.lor_0_r in Hlt, Ha.
    rewrite quantum_digits2; [now rewrite Ha | exact Hlt |].
    rewrite N.shiftl_mul_pow2. change (2 ^ 16) with (16 * 4096).
    rewrite N.mul_assoc. apply N.Div0.mod_mul.
  - cbn [Encode decode_quanta]. rewrite !digit_valid. cbn [orb].
    rewrite !tab_decode by apply digit_lt.
    destruct (group3_roundtrip a b x00) as (Hlt & Ha & Hb & _).
    change (uint x00) with 0 in Hlt, Ha, Hb.
    rewrite !N.lor_0_r in Hlt, Ha, Hb.
    rewrite quantum_digits3; [now rewrite Ha, Hb | exact Hlt |].
    pose proof (group_val_eq (uint a) (uint b) 0 (uint_lt b) eq_refl) as Hv.
    rewrite N.lor_0_r in Hv. rewrite Hv.
    zify; Z.to_euclidean_division_equations; lia.
  - cbn [Encode decode_quanta]. rewrite !digit_valid. cbn [orb].
    rewrite !tab_decode by apply digit_lt.
    destruct (group3_roundtrip a b c) as (Hlt & Ha & Hb & Hc).
    rewrite IH. rewrite quantum_digits by exact Hlt.
    now rewrite Ha, Hb, Hc.
Qed.

Lemma filter_alphabet (l : bytes) :
  Forall alphabet l -> List.filter (fun c => negb (is_newline c)) l = l.
Proof.
  induction 1 as [|c l Hc _ IH]; [reflexivity|].
  cbn [List.filter]. destruct Hc as [d Hd].
  rewrite tab_not_newline by exact Hd. cbn [negb]. now rewrite IH.
Qed.

(** [Decode] gives back what [Encode] was given. *)
Theorem Decode_Encode (src : bytes) : Decode (Encode src) = Some src.
Proof.
  unfold Decode. rewrite filter_alphabet by apply Encode_alphabet.
  apply decode_quanta_Encode.
Qed.

(** The delimiter is no character of the alphabet. *)
Lemma Encode_no_hash (src : bytes) : ~ In hash (Encode src).
Proof.
  intros Hin. pose proof (Encode_alphabet src) as Hall.
  rewrite List.Forall_forall in Hall. specialize (Hall _ Hin).
  inversion Hall as [d Hd Heq]. now apply (tab_not_hash d Hd).
Qed.

(** *** Slices *)

Lemma make_length n : length (make n) = n.
Proof. apply length_replicate. Qed.

Lemma copy_at_whole (src : bytes) : copy_at (make (length src)) 0 src = src.
Proof.
  tidy.
  unfold copy_at. rewrite make_length, Nat.sub_0_r.
  cbn [take]. rewrite firstn_all. cbn [app plus].
  rewrite drop_ge by (rewrite make_length; lia).
  apply app_nil_r.
Qed.

(** The prefix that [Encrypt] builds: the encoded name between two
    delimiters. *)
Lemma envelope_prefix (enc : bytes) :
  let prefix := make (length enc + 2) in
  let prefix := copy_at prefix 1 enc in
  let prefix := <[0%nat := hash]> prefix in
  <[(length prefix - 1)%nat := hash]> prefix = hash :: enc ++ [hash].
Proof.
  tidy.
  cbv zeta.
  assert (H1 : copy_at (make (length enc + 2)) 1 enc = x00 :: enc ++ [x00]).
  { unfold copy_at. rewrite make_length. unfold make.
    rewrite take_replicate, drop_replicate.
    rewrite (take_ge enc) by lia.
    replace (1 `min` (length enc + 2))%nat with 1%nat by lia.
    replace (length enc + 2 - (1 + length enc))%nat with 1%nat by lia.
    reflexivity. }
  rewrite H1. cbn [insert list_insert].
  rewrite length_cons, Nat.sub_succ, Nat.sub_0_r.
  change (hash :: enc ++ [x00]) with ((hash :: enc) ++ [x00]).
  replace (length (enc ++ [x00])) with (length (hash :: enc) + 0)%nat
    by (rewrite length_app; cbn [length]; lia).
  rewrite insert_app_r. reflexivity.
Qed.

(** The blob that [Encrypt] builds: the prefix, then the sealed
    payload. *)
Lemma envelope_blob (prefix encrypted : bytes) :
  let blob := make (length prefix + length encrypted) in
  let blob := copy_at blob 0 prefix in
  copy_at blob (length prefix) encrypted = prefix ++ encrypted.
Proof.
  tidy.
  cbv zeta.
  assert (H1 : copy_at (make (length prefix + length encrypted)) 0 prefix
               = prefix ++ replicate (length encrypted) x00).
  { unfold copy_at. rewrite make_length. unfold make.
    rewrite take_0, drop_replicate, Nat.sub_0_r.
    rewrite (take_ge prefix) by lia.
    replace (length prefix + length encrypted - (0 + length prefix))%nat
      with (length encrypted) by lia.
    reflexivity. }
  rewrite H1. unfold copy_at.
  rewrite take_app_length, length_app, length_replicate.
  replace (length prefix + length encrypted - length prefix)%nat
    with (length encrypted) by lia.
  rewrite (take_ge encrypted) by lia.
  rewrite drop_ge by (rewrite length_app, length_replicate; lia).
  now rewrite app_nil_r.
Qed.

(** [bytes.Index] for the delimiter. *)
Lemma Index_hash_absent (l : bytes) : ~ In hash l -> Index l [hash] = (-1)%Z.
Proof.
  induction l as [|c l IH]; intros Hnot; [reflexivity|].
  cbn [Index HasPrefix]. rewrite andb_true_r.
  destruct (Byte.eqb c hash) eqn:E.
  - apply Byte.byte_dec_bl in E. subst c. exfalso. apply Hnot. now left.
  - rewrite IH; [reflexivity|]. intros Hin. apply Hnot. now right.
Qed.

Lemma Index_hash_first (l rest : bytes) :
  ~ In hash l -> Index (l ++ hash :: rest) [hash] = Z.of_nat (length l).
Proof.
  tidy.
  induction l as [|c l IH]; intros Hnot.
  - cbn [app Index HasPrefix length]. reflexivity.
  - cbn [app Index HasPrefix length]. rewrite andb_true_r.
    destruct (Byte.eqb c hash) eqn:E.
    + apply Byte.byte_dec_bl in E. subst c. exfalso. apply Hnot. now left.
    + rewrite IH by (intros Hin; apply Hnot; now right).
      destruct (Z.of_nat (length l) =? -1)%Z eqn:E1; lia.
Qed.

(** *** The envelope *)

(** What [Encrypt] returns, in one equation. *)
Lemma Encrypt_unfold (payload : bytes) (st : State) :
  Encrypt payload st =
  (let key := defaultEncryptionKey (svc st) in
   dataKey <- dataKey key ;;
   encrypted <- call_encrypt payload dataKey ;;
   ret (hash :: Encode (list_byte_of_string key) ++ hash :: encrypted)) st.
Proof.
  unfold Encrypt, bind, gets. cbv zeta.
  destruct (dataKey _ st) as [[dk| |] st1]; try reflexivity.
  destruct (call_encrypt _ _ st1) as [[c| |] st2]; try reflexivity.
  rewrite <- Encode_length, envelope_prefix.
  rewrite envelope_blob. unfold ret. do 2 f_equal.
  cbn [app]. now rewrite <- app_assoc.
Qed.

Lemma Encrypt_inv (payload blob : bytes) (st st' : State) :
  Encrypt payload st = (Ok blob, st') ->
  exists dk st1 c,
    dataKey (defaultEncryptionKey (svc st)) st = (Ok dk, st1)
    /\ encrypt (cipher_rand (world st1) (cipher_calls (world st1))) payload dk = Ok c
    /\ st' = with_world count_cipher_call st1
    /\ blob = hash :: Encode (list_byte_of_string (defaultEncryptionKey (svc st)))
                ++ hash :: c.
Proof.
  rewrite Encrypt_unfold. cbv zeta. unfold bind.
  destruct (dataKey _ st) as [[dk| |] st1]; try discriminate.
  unfold call_encrypt, ret.
  destruct (encrypt _ payload dk) as [c| |] eqn:Hc; try discriminate.
  intros [= <- <-]. now exists dk, st1, c.
Qed.

(** What [Decrypt] does with an envelope whose key name is [key]. *)
Lemma Decrypt_envelope (key : string) (c : bytes) (st : State) :
  Decrypt (hash :: Encode (list_byte_of_string key) ++ hash :: c) st =
  (dataKey <- dataKey key ;; lift (decrypt c dataKey)) st.
Proof.
  tidy.
  unfold Decrypt. cbv zeta. change (Byte.eqb hash hash) with true.
  cbn [negb drop]. rewrite !drop_0.
  rewrite Index_hash_first by apply Encode_no_hash.
  destruct (Z.of_nat _ =? -1)%Z eqn:E; [apply Z.eqb_eq in E; lia|]. clear E.
  rewrite Nat2Z.id, take_app_length.
  replace (Z.to_nat (Z.of_nat (length (Encode (list_byte_of_string key))) + 1))
    with (length (Encode (list_byte_of_string key)) + 1)%nat by lia.
  rewrite drop_app_add'; [|reflexivity]. cbn [drop].
  rewrite Decode_Encode, Encode_length, DecodedLen_EncodedLen.
  now rewrite copy_at_whole, string_of_list_byte_of_string.
Qed.

(** [Decrypt] goes the way [Decrypt_route] names. *)
Lemma Decrypt_by_route (payload : bytes) (st : State) :
  match Decrypt_route payload with
  | Shortcut => Decrypt payload st = (Ok [], st)
  | Legacy =>
      Decrypt payload st = (decrypt payload (list_byte_of_string SecretKey), st)
  | Envelope =>
      hd_error payload = Some hash
      /\ (Index (drop 1 payload) [hash] = (-1)%Z ->
          Decrypt payload st
          = (Err (Errorf "could not find valid key in encrypted payload"), st))
  end.
Proof.
  destruct payload as [|first rest]; [reflexivity|].
  unfold Decrypt_route, Decrypt.
  destruct (Byte.eqb first hash) eqn:E; cbn [negb]; [|reflexivity].
  apply Byte.byte_dec_bl in E. subst first. split; [reflexivity|].
  cbv zeta. intros ->. reflexivity.
Qed.

(** *** The empty name *)

(** The empty name is answered by the configured secret. *)
Lemma dataKey_empty (st : State) :
  dataKey "" st = (Ok (list_byte_of_string SecretKey), st).
Proof. reflexivity. Qed.

(** ** C2: the empty blob *)

(** C2.  [Decrypt] of the empty blob returns empty bytes and no error,
    and leaves the whole state as it is: no call of the store and no
    call of a provider is made (the trace and the count of store calls
    are those of before). *)
Theorem Decrypt_empty (st : State) :
  Decrypt [] st = (Ok [], st).
Proof. reflexivity. Qed.

(** ** C3: no closing delimiter *)

(** C3.  A blob that starts with ['#'] and has no second ['#'] makes
    [Decrypt] fail with the error "could not find valid key in
    encrypted payload"; no plaintext is returned and the state is as
    before. *)
Theorem Decrypt_malformed_envelope (rest : bytes) (st : State) :
  ~ In hash rest ->
  Decrypt (hash :: rest) st
  = (Err (Errorf "could not find valid key in encrypted payload"), st).
Proof.
  intros Hnot. unfold Decrypt. change (Byte.eqb hash hash) with true.
  cbn [negb drop]. cbv zeta. rewrite drop_0.
  now rewrite (Index_hash_absent rest Hnot).
Qed.

(** ** C5: the empty key name *)

(** C5.  With [defaultEncryptionKey] empty, a blob that [Encrypt]
    returns starts with the two bytes ["##"], and [Decrypt] of it, in
    any state, opens what follows them under the configured secret and
    leaves the state as it is: the store is not asked. *)
Theorem Encrypt_empty_key_name (p blob : bytes) (st st1 : State) :
  defaultEncryptionKey (svc st) = "" ->
  Encrypt p st = (Ok blob, st1) ->
  take 2 blob = [hash; hash]
  /\ forall st2 : State,
       Decrypt blob st2
       = (decrypt (drop 2 blob) (list_byte_of_string SecretKey), st2).
Proof.
  intros Hkey Henc.
  apply Encrypt_inv in Henc as (dk & st' & c & _ & _ & _ & ->).
  rewrite Hkey. split; [reflexivity|]. intros st2.
  rewrite (Decrypt_envelope "" c st2). reflexivity.
Qed.

(** ** C9: what [Encrypt] returns is an envelope *)

(** C9.  A blob that [Encrypt] returns is not empty and its first byte
    is ['#'], whatever the key name, so that [Decrypt] goes neither by
    the shortcut for the empty blob nor as for a blob without envelope:
    it resolves the key name of the envelope and opens what follows the
    second delimiter. *)
Theorem Encrypt_is_envelope (p blob : bytes) (st st1 : State) :
  Encrypt p st = (Ok blob, st1) ->
  length blob <> 0%nat
  /\ hd_error blob = Some hash
  /\ Decrypt_route blob = Envelope
  /\ exists c,
       blob = hash :: Encode (list_byte_of_string (defaultEncryptionKey (svc st)))
                ++ hash :: c
       /\ forall st2 : State,
            Decrypt blob st2
            = (k <- dataKey (defaultEncryptionKey (svc st)) ;; lift (decrypt c k)) st2.
Proof.
  intros Henc.
  apply Encrypt_inv in Henc as (dk & st' & c & _ & _ & _ & ->).
  split; [cbn [length]; lia|]. split; [reflexivity|]. split; [reflexivity|].
  exists c. split; [reflexivity|]. intros st2. apply Decrypt_envelope.
Qed.

(** *** Counting events *)

Lemma count_no_create (evs : list event) :
  forallb (fun e => negb (is_create e)) evs = true ->
  count is_create evs = 0%nat.
Proof.
  unfold count. induction evs as [|e evs IH]; [reflexivity|].
  cbn [forallb List.filter]. intros H. apply andb_prop in H as [He Hevs].
  destruct (is_create e); [discriminate|]. now apply IH.
Qed.

Lemma count_app (kind : event -> bool) (tr evs : list event) :
  count kind (tr ++ evs) = (count kind tr + count kind evs)%nat.
Proof. unfold count. now rewrite List.filter_app, length_app. Qed.

(** *** [dataKey], case by case *)

Lemma eqb_empty_false (key : string) : key <> "" -> String.eqb key "" = false.
Proof. intros H. now apply String.eqb_neq. Qed.

(** No entry: [dataKey] fetches. *)
Lemma dataKey_miss (key : string) (st : State) :
  key <> "" -> cached st key = None ->
  dataKey key st = dataKey_fetch key st.
Proof.
  intros Hkey Hc. unfold dataKey. rewrite (eqb_empty_false key Hkey).
  unfold bind at 1. unfold bind at 1. unfold cache_get, gets.
  unfold cached in Hc. rewrite Hc. reflexivity.
Qed.

(** An entry that has not expired: [dataKey] returns it, and only the
    clock has been read. *)
Lemma dataKey_hit (key : string) (st : State) (item : dataKeyCacheItem) :
  key <> "" -> cached st key = Some item ->
  expired item (next_now st) = false ->
  dataKey key st = (Ok (item_dataKey item), with_world count_clock_read st).
Proof.
  intros Hkey Hc Hexp. unfold dataKey. rewrite (eqb_empty_false key Hkey).
  unfold bind at 1. unfold bind at 1. unfold cache_get, gets.
  unfold cached in Hc. rewrite Hc.
  unfold bind at 1. unfold time_Now.
  unfold expired, next_now in Hexp. rewrite Hexp. reflexivity.
Qed.

(** An entry that has expired: [dataKey] deletes it and fetches. *)
Lemma dataKey_evict (key : string) (st : State) (item : dataKeyCacheItem) :
  key <> "" -> cached st key = Some item ->
  expired item (next_now st) = true ->
  dataKey key st
  = dataKey_fetch key
      (with_svc (fun s => set_dataKeyCache (delete key <$> dataKeyCache s) s)
         (with_world count_clock_read st)).
Proof.
  intros Hkey Hc Hexp. unfold dataKey. rewrite (eqb_empty_false key Hkey).
  unfold bind at 1. unfold bind at 1. unfold cache_get, gets.
  unfold cached in Hc. rewrite Hc.
  unfold bind at 1. unfold time_Now.
  unfold expired, next_now in Hexp. rewrite Hexp. reflexivity.
Qed.

(** *** Computations that do not write to the store *)

Lemma store_untouched_refl (st : State) : store_untouched st st.
Proof.
  repeat split. exists []. now rewrite app_nil_r.
Qed.

Lemma store_untouched_trans (st1 st2 st3 : State) :
  store_untouched st1 st2 -> store_untouched st2 st3 ->
  store_untouched st1 st3.
Proof.
  intros (Hr1 & Hf1 & evs1 & Ht1 & Hc1) (Hr2 & Hf2 & evs2 & Ht2 & Hc2).
  repeat split; try congruence.
  exists (evs1 ++ evs2). split.
  - now rewrite Ht2, Ht1, app_assoc.
  - now rewrite forallb_app, Hc1, Hc2.
Qed.

(** A step that adds no event and leaves the records alone. *)
Ltac untouched :=
  repeat split; exists []; cbn [forallb]; split; [|reflexivity];
  cbn; now rewrite app_nil_r.

Lemma reads_ret {A} (a : A) : reads_store_only (ret a).
Proof. intros st. untouched. Qed.

Lemma reads_fail {A} (e : error) : reads_store_only (@fail A e).
Proof. intros st. untouched. Qed.

Lemma reads_lift {A} (r : outcome A) : reads_store_only (lift r).
Proof. intros st. untouched. Qed.

Lemma reads_gets {A} (f : Secrets -> A) : reads_store_only (gets f).
Proof. intros st. untouched. Qed.

Lemma reads_modify (f : Secrets -> Secrets) : reads_store_only (modify f).
Proof. intros st. untouched. Qed.

Lemma reads_bind {A B} (m : M A) (k : A -> M B) :
  reads_store_only m -> (forall a, reads_store_only (k a)) ->
  reads_store_only (bind m k).
Proof.
  intros Hm Hk st. unfold bind. specialize (Hm st).
  destruct (m st) as [[a|e|msg] st1]; cbn [snd] in *; try exact Hm.
  eapply store_untouched_trans; [exact Hm|]. apply Hk.
Qed.

Lemma reads_time_Now : reads_store_only time_Now.
Proof. intros st. untouched. Qed.

Lemma reads_cache_get (key : string) : reads_store_only (cache_get key).
Proof. apply reads_gets. Qed.

Lemma reads_cache_delete (key : string) : reads_store_only (cache_delete key).
Proof. apply reads_modify. Qed.

Lemma reads_cache_set (key : string) (item : dataKeyCacheItem) :
  reads_store_only (cache_set key item).
Proof.
  intros st. unfold cache_set.
  destruct (dataKeyCache (svc st)); untouched.
Qed.

Lemma reads_call_encrypt (payload secret : bytes) :
  reads_store_only (call_encrypt payload secret).
Proof. intros st. untouched. Qed.

Lemma reads_call_Provider_Decrypt (id : string) (p : Provider) (blob : bytes) :
  reads_store_only (call_Provider_Decrypt id p blob).
Proof.
  intros st. repeat split. now exists [EvProviderDecrypt id blob].
Qed.

Lemma reads_store_GetDataKey (name : string) :
  reads_store_only (store_GetDataKey name).
Proof.
  intros st. unfold store_GetDataKey.
  assert (H : store_untouched st
                (with_world (fun w => emit (EvGetDataKey name) (count_store_call w)) st)).
  { repeat split. now exists [EvGetDataKey name]. }
  destruct (store_fault _ _); [exact H|].
  destruct (records _ !! name); exact H.
Qed.

Lemma reads_rand_Read (n : nat) : reads_store_only (rand_Read n).
Proof.
  intros st. unfold rand_Read.
  destruct (rand_src _ _); untouched.
Qed.

Ltac reads_step :=
  first
    [ apply reads_ret | apply reads_fail | apply reads_lift
    | apply reads_gets | apply reads_modify | apply reads_time_Now
    | apply reads_cache_get | apply reads_cache_delete
    | apply reads_cache_set | apply reads_call_encrypt
    | apply reads_call_Provider_Decrypt | apply reads_store_GetDataKey
    | apply reads_rand_Read
    | apply reads_bind; [|intros ?]
    | match goal with
      | |- reads_store_only (match ?x with _ => _ end) => destruct x
      end ].

Lemma reads_dataKey_fetch (key : string) : reads_store_only (dataKey_fetch key).
Proof. unfold dataKey_fetch. repeat reads_step. Qed.

Lemma reads_dataKey (key : string) : reads_store_only (dataKey key).
Proof. unfold dataKey. repeat reads_step. Qed.

Lemma reads_Encrypt (payload : bytes) : reads_store_only (Encrypt payload).
Proof.
  unfold Encrypt. repeat reads_step; apply reads_dataKey.
Qed.

Lemma reads_Decrypt (payload : bytes) : reads_store_only (Decrypt payload).
Proof.
  unfold Decrypt. cbv zeta. repeat reads_step; apply reads_dataKey.
Qed.

(** ** C10: only the bootstrap writes to the store *)

(** C10.  [dataKey] and [Decrypt] (and [Encrypt]) never write to the
    store: whatever the input and the state, the records are afterwards
    those of before and no [CreateDataKey] is among the calls made; the
    one call of the store they make is [GetDataKey].  The call
    [CreateDataKey] stands in [newRandomDataKey] alone, which [Init]
    runs. *)
Theorem store_written_by_bootstrap_only :
  (forall key st, store_untouched st (snd (dataKey key st)))
  /\ (forall payload st, store_untouched st (snd (Decrypt payload st)))
  /\ (forall payload st, store_untouched st (snd (Encrypt payload st))).
Proof.
  split; [|split]; intros x st.
  - apply reads_dataKey.
  - apply reads_Decrypt.
  - apply reads_Encrypt.
Qed.

(** *** What a fetch does *)

Lemma dataKey_fetch_unknown_provider (key : string) (st : State)
    (rec : models.DataKey) :
  next_fault st = None ->
  records (world st) !! key = Some rec ->
  providers (svc st) !! models.Provider rec = None ->
  dataKey_fetch key st
  = (Err (Errorf ("could not find encryption provider '"
                  ++ models.Provider rec ++ "'")),
     after_GetDataKey key st).
Proof.
  intros Hf Hr Hp. unfold dataKey_fetch, bind, store_GetDataKey.
  unfold next_fault in Hf. rewrite Hf, Hr.
  unfold gets. cbn [svc with_world]. rewrite Hp. reflexivity.
Qed.

Lemma dataKey_fetch_ok (key : string) (st : State) (rec : models.DataKey)
    (p : Provider) (dk : bytes) (c : gmap string dataKeyCacheItem) :
  next_fault st = None ->
  records (world st) !! key = Some rec ->
  providers (svc st) !! models.Provider rec = Some p ->
  Provider_Decrypt p (models.EncryptedData rec) = Ok dk ->
  dataKeyCache (svc st) = Some c ->
  dataKey_fetch key st
  = (Ok dk,
     with_svc
       (set_dataKeyCache
          (Some (<[key := {| expiry := time.Add (next_now st) (15 * time.Minute);
                             item_dataKey := dk |}]> c)))
       (with_world count_clock_read
          (with_world (emit (EvProviderDecrypt (models.Provider rec)
                               (models.EncryptedData rec)))
             (after_GetDataKey key st)))).
Proof.
  intros Hf Hr Hp Hd Hc. unfold dataKey_fetch, bind, store_GetDataKey.
  unfold next_fault in Hf. rewrite Hf, Hr.
  unfold gets. cbn [svc with_world]. rewrite Hp.
  unfold ret, call_Provider_Decrypt. rewrite Hd.
  unfold time_Now, cache_set. cbn [svc with_world]. rewrite Hc.
  reflexivity.
Qed.

(** A fetch starts with the call [GetDataKey(key)]. *)
Lemma dataKey_fetch_trace (key : string) (st : State) :
  exists evs,
    trace (world (snd (dataKey_fetch key st)))
    = trace (world st) ++ EvGetDataKey key :: evs
    /\ count is_fetch evs = 0%nat.
Proof.
  unfold dataKey_fetch, bind, store_GetDataKey.
  destruct (store_fault _ _); [exists []; split; reflexivity|].
  destruct (records _ !! key) as [rec|]; [|exists []; split; reflexivity].
  unfold gets. cbn [svc with_world].
  destruct (providers _ !! _) as [p|]; [|exists []; split; reflexivity].
  unfold ret, call_Provider_Decrypt.
  destruct (Provider_Decrypt p _);
    [|eexists; split; [cbn; rewrite <- app_assoc; reflexivity|reflexivity]..].
  unfold time_Now, cache_set. cbn [svc with_world].
  destruct (dataKeyCache _);
    eexists; (split; [cbn; rewrite <- app_assoc; reflexivity|reflexivity]).
Qed.

(** After a fetch the cache holds a new entry for the name if the
    fetch has succeeded, and is as it was if not. *)
Lemma dataKey_fetch_cache (key : string) (st : State) :
  match dataKey_fetch key st with
  | (Ok dk, st') =>
      exists now,
        cached st' key
        = Some {| expiry := time.Add now (15 * time.Minute); item_dataKey := dk |}
  | (_, st') => dataKeyCache (svc st') = dataKeyCache (svc st)
  end.
Proof.
  unfold dataKey_fetch, bind, store_GetDataKey.
  destruct (store_fault _ _); [reflexivity|].
  destruct (records _ !! key) as [rec|]; [|reflexivity].
  unfold gets. cbn [svc with_world].
  destruct (providers _ !! _) as [p|]; [|reflexivity].
  unfold ret, call_Provider_Decrypt.
  destruct (Provider_Decrypt p _); [|reflexivity..].
  unfold time_Now, cache_set. cbn [svc with_world].
  destruct (dataKeyCache _) eqn:Hc; [|exact Hc].
  eexists. unfold cached. cbn. apply lookup_insert_eq.
Qed.

(** *** What [Encrypt] leaves in the cache *)

(** After a successful [Encrypt] under a name that is not empty, the
    cache holds the data key that was used. *)
Lemma Encrypt_caches (p blob : bytes) (st st1 : State) :
  Encrypt p st = (Ok blob, st1) ->
  defaultEncryptionKey (svc st) <> "" ->
  exists item,
    cached st1 (defaultEncryptionKey (svc st)) = Some item
    /\ fst (dataKey (defaultEncryptionKey (svc st)) st) = Ok (item_dataKey item).
Proof.
  intros Henc Hkey.
  apply Encrypt_inv in Henc as (dk & st' & c & Hdk & _ & -> & _).
  set (key := defaultEncryptionKey (svc st)) in *.
  change (cached (with_world count_cipher_call st') key) with (cached st' key).
  rewrite Hdk. cbn [fst].
  assert (Hfetch : forall st0, dataKey_fetch key st0 = (Ok dk, st') ->
            exists item, cached st' key = Some item /\ Ok dk = Ok (item_dataKey item)).
  { intros st0 H0. pose proof (dataKey_fetch_cache key st0) as Hc.
    rewrite H0 in Hc. destruct Hc as [now Hc]. eexists. split; [exact Hc|reflexivity]. }
  destruct (cached st key) as [item|] eqn:Hcached.
  - destruct (expired item (next_now st)) eqn:Hexp.
    + rewrite (dataKey_evict key st item Hkey Hcached Hexp) in Hdk.
      eapply Hfetch, Hdk.
    + rewrite (dataKey_hit key st item Hkey Hcached Hexp) in Hdk.
      injection Hdk as <- <-. exists item. split; [exact Hcached|reflexivity].
  - rewrite (dataKey_miss key st Hkey Hcached) in Hdk. eapply Hfetch, Hdk.
Qed.

(** The state that [dataKey] hands to its fetch when the cache does not
    answer: the expired entry of the name is gone, and at most the clock
    has been read. *)
Lemma dataKey_uncached (key : string) (st : State) :
  key <> "" ->
  (forall item, cached st key = Some item -> expired item (next_now st) = true) ->
  exists st0,
    dataKey key st = dataKey_fetch key st0
    /\ dataKeyCache (svc st0) = delete key <$> dataKeyCache (svc st)
    /\ providers (svc st0) = providers (svc st)
    /\ next_fault st0 = next_fault st
    /\ records (world st0) = records (world st)
    /\ trace (world st0) = trace (world st).
Proof.
  intros Hkey Hexp. destruct (cached st key) as [item|] eqn:Hc.
  - eexists. split; [apply (dataKey_evict key st item Hkey Hc (Hexp item eq_refl))|].
    repeat split.
  - exists st. split; [apply (dataKey_miss key st Hkey Hc)|].
    split; [|repeat split].
    unfold cached in Hc. destruct (dataKeyCache (svc st)) as [c|]; [|reflexivity].
    cbn. f_equal. symmetry. now apply delete_id.
Qed.

(** A fetch whose look-up fails. *)
Lemma dataKey_fetch_lookup_fails (key : string) (st : State) (e : error) :
  next_fault st = Some e
  \/ (next_fault st = None /\ records (world st) !! key = None
      /\ e = ErrDataKeyNotFound) ->
  dataKey_fetch key st = (Err e, after_GetDataKey key st).
Proof.
  unfold next_fault, dataKey_fetch, bind, store_GetDataKey.
  intros [Hf|(Hf & Hr & ->)]; rewrite Hf; [reflexivity|]. now rewrite Hr.
Qed.

(** ** C1: round trip *)

(** C1 (amended).  Whatever the bytes [p] (none, or bytes that are no
    text): when [Encrypt p] has succeeded with the blob [blob] under the
    data key [dk], a later [Decrypt blob] resolves the key name of the
    envelope anew, and returns exactly [p] when the name resolves to
    [dk] again.  Under the empty name it always does, in every state.
    Under a name that is not empty [Encrypt] leaves [dk] in the cache,
    and [Decrypt] returns [p] while an entry with [dk] has not expired,
    and after that when the store and the provider deliver [dk] again;
    when the cache does not answer and the look-up in the store meets
    an error, [Decrypt] fails with that error.  The cipher is assumed to
    open what it has sealed. *)
Theorem Decrypt_Encrypt_roundtrip (p blob : bytes) (st st1 : State) :
  (forall r m k c, encrypt r m k = Ok c -> decrypt c k = Ok m) ->
  Encrypt p st = (Ok blob, st1) ->
  let key := defaultEncryptionKey (svc st) in
  exists dk,
    fst (dataKey key st) = Ok dk
    /\ (key = "" -> forall st2, Decrypt blob st2 = (Ok p, st2))
    /\ (key <> "" ->
        exists item, cached st1 key = Some item /\ item_dataKey item = dk)
    /\ forall st2,
         key <> "" ->
         (forall item,
             cached st2 key = Some item ->
             expired item (next_now st2) = false ->
             item_dataKey item = dk ->
             Decrypt blob st2 = (Ok p, with_world count_clock_read st2))
         /\ (forall rec provider c,
                (forall item, cached st2 key = Some item ->
                              expired item (next_now st2) = true) ->
                dataKeyCache (svc st2) = Some c ->
                next_fault st2 = None ->
                records (world st2) !! key = Some rec ->
                providers (svc st2) !! models.Provider rec = Some provider ->
                Provider_Decrypt provider (models.EncryptedData rec) = Ok dk ->
                fst (Decrypt blob st2) = Ok p)
         /\ (forall e,
                (forall item, cached st2 key = Some item ->
                              expired item (next_now st2) = true) ->
                next_fault st2 = Some e ->
                fst (Decrypt blob st2) = Err e).
Proof.
  intros Hcipher Henc key.
  pose proof Henc as Hcaches.
  apply Encrypt_inv in Henc as (dk & st' & c & Hdk & Hc & _ & ->).
  fold key in Hdk |- *.
  pose proof (Hcipher _ _ _ _ Hc) as Hopen.
  exists dk. split; [now rewrite Hdk|]. split; [|split].
  - intros Hempty st2. rewrite Decrypt_envelope. rewrite Hempty in *.
    rewrite dataKey_empty in Hdk. injection Hdk as <- _.
    unfold bind. rewrite dataKey_empty. unfold lift. now rewrite Hopen.
  - intros Hkey.
    destruct (Encrypt_caches p _ st st1 Hcaches Hkey) as (item & Hitem & Hsame).
    fold key in Hitem, Hsame. rewrite Hdk in Hsame. injection Hsame as ->.
    now exists item.
  - intros st2 Hkey. split; [|split].
    + intros item Hitem Hfresh Hdk2. rewrite Decrypt_envelope. unfold bind.
      rewrite (dataKey_hit key st2 item Hkey Hitem Hfresh).
      unfold lift. now rewrite Hdk2, Hopen.
    + intros rec provider c0 Hunc Hcache Hf Hr Hp Hd.
      rewrite Decrypt_envelope. unfold bind.
      destruct (dataKey_uncached key st2 Hkey Hunc)
        as (st0 & -> & Hc0 & Hp0 & Hf0 & Hr0 & _).
      rewrite (dataKey_fetch_ok key st0 rec provider dk (delete key c0));
        [ | now rewrite Hf0 | now rewrite Hr0 | now rewrite Hp0 | exact Hd
          | now rewrite Hc0, Hcache ].
      unfold lift. cbn [fst]. exact Hopen.
    + intros e Hunc Hf. rewrite Decrypt_envelope. unfold bind.
      destruct (dataKey_uncached key st2 Hkey Hunc)
        as (st0 & -> & _ & _ & Hf0 & _ & _).
      rewrite (dataKey_fetch_lookup_fails key st0 e) by (left; now rewrite Hf0).
      reflexivity.
Qed.

(** ** C6: a record of an unknown provider *)

(** For a name that the cache does not answer (no entry, or an entry
    that has expired), a record of an unknown provider makes [dataKey]
    fail and add nothing to the cache. *)
Lemma dataKey_uncached_unknown_provider (key : string) (st : State)
    (rec : models.DataKey) :
  key <> "" ->
  (forall item, cached st key = Some item -> expired item (next_now st) = true) ->
  next_fault st = None ->
  records (world st) !! key = Some rec ->
  providers (svc st) !! models.Provider rec = None ->
  exists st',
    dataKey key st
    = (Err (Errorf ("could not find encryption provider '"
                    ++ models.Provider rec ++ "'")), st')
    /\ dataKeyCache (svc st') = delete key <$> dataKeyCache (svc st)
    /\ (cached st key = None -> dataKeyCache (svc st') = dataKeyCache (svc st)).
Proof.
  intros Hkey Hexp Hf Hr Hp.
  destruct (cached st key) as [item|] eqn:Hc.
  - rewrite (dataKey_evict key st item Hkey Hc (Hexp item eq_refl)).
    erewrite dataKey_fetch_unknown_provider; [|exact Hf|exact Hr|exact Hp].
    eexists. split; [reflexivity|]. split; [reflexivity|discriminate].
  - rewrite (dataKey_miss key st Hkey Hc).
    rewrite (dataKey_fetch_unknown_provider key _ rec Hf Hr Hp).
    eexists. split; [reflexivity|].
    assert (Hsame : delete key <$> dataKeyCache (svc st) = dataKeyCache (svc st)).
    { unfold cached in Hc. destruct (dataKeyCache (svc st)) as [c|]; [|reflexivity].
      cbn. f_equal. now apply delete_id. }
    split; [now rewrite Hsame | reflexivity].
Qed.

(** *** What every state of a run has *)

Section preserves.
Context (I : State -> Prop).

Lemma preserves_ret {A} (a : A) : preserves I (ret a).
Proof. intros st H. exact H. Qed.

Lemma preserves_fail {A} (e : error) : preserves I (@fail A e).
Proof. intros st H. exact H. Qed.

Lemma preserves_lift {A} (r : outcome A) : preserves I (lift r).
Proof. intros st H. exact H. Qed.

Lemma preserves_gets {A} (f : Secrets -> A) : preserves I (gets f).
Proof. intros st H. exact H. Qed.

Lemma preserves_bind {A B} (m : M A) (k : A -> M B) :
  preserves I m -> (forall a, preserves I (k a)) -> preserves I (bind m k).
Proof.
  intros Hm Hk st H. unfold bind. specialize (Hm st H).
  destruct (m st) as [[a|e|msg] st1]; cbn [snd] in *; try exact Hm.
  now apply Hk.
Qed.

Lemma preserves_attempt {A} (m : M A) : preserves I m -> preserves I (attempt m).
Proof.
  intros Hm st H. unfold attempt. specialize (Hm st H).
  destruct (m st) as [[a|e|msg] st1]; exact Hm.
Qed.
End preserves.

(** A step that leaves the service and the records alone. *)
Lemma cache_sound_world (st st' : State) :
  svc st' = svc st -> records (world st') = records (world st) ->
  cache_sound st -> cache_sound st'.
Proof.
  intros Hs Hr [Hp Hc]. unfold cache_sound, cached in *.
  rewrite Hs, Hr. now split.
Qed.

Ltac sound_world :=
  intros st H; eapply cache_sound_world; [| |exact H]; reflexivity.

Lemma sound_time_Now : preserves cache_sound time_Now.
Proof. sound_world. Qed.

Lemma sound_util_set : preserves cache_sound util_set.
Proof. sound_world. Qed.

Lemma sound_call_encrypt (payload secret : bytes) :
  preserves cache_sound (call_encrypt payload secret).
Proof. sound_world. Qed.

Lemma sound_store_GetDataKey (name : string) :
  preserves cache_sound (store_GetDataKey name).
Proof.
  intros st H. unfold store_GetDataKey.
  destruct (store_fault _ _); [|destruct (records _ !! name)];
    (eapply cache_sound_world; [| |exact H]; reflexivity).
Qed.

Lemma sound_rand_Read (n : nat) : preserves cache_sound (rand_Read n).
Proof.
  intros st H. unfold rand_Read.
  destruct (rand_src _ _); (eapply cache_sound_world; [| |exact H]; reflexivity).
Qed.

(** A record is created under a name that has none: the records of the
    names in the cache stay. *)
Lemma sound_store_CreateDataKey (rec : models.DataKey) :
  preserves cache_sound (store_CreateDataKey rec).
Proof.
  intros st H. unfold store_CreateDataKey.
  destruct (store_fault _ _);
    [eapply cache_sound_world; [| |exact H]; reflexivity|].
  destruct (records _ !! models.Name rec) eqn:Hname;
    [eapply cache_sound_world; [| |exact H]; reflexivity|].
  destruct H as [Hp Hc]. split; [exact Hp|].
  intros key item Hitem. destruct (Hc key item Hitem) as (r & Hr & Hreg).
  exists r. split; [|exact Hreg]. cbn.
  rewrite lookup_insert_ne; [exact Hr|]. intros <-. congruence.
Qed.

(** The registry of [Init]: a provider that was registered had the id
    [""], which is registered again. *)
Lemma sound_set_providers (p : Provider) :
  preserves cache_sound (modify (set_providers {[ "" := p ]})).
Proof.
  intros st [Hp Hc]. split.
  - intros id [q Hq]. cbn in Hq.
    apply lookup_singleton_Some in Hq as [<- _]. reflexivity.
  - intros key item Hitem. destruct (Hc key item Hitem) as (r & Hr & Hreg).
    exists r. split; [exact Hr|]. cbn.
    rewrite (Hp _ Hreg). rewrite lookup_singleton_eq. now eexists.
Qed.

Lemma cache_sound_delete (key : string) (st : State) :
  cache_sound st ->
  cache_sound (with_svc (fun s => set_dataKeyCache (delete key <$> dataKeyCache s) s) st).
Proof.
  intros [Hp Hc]. split; [exact Hp|].
  intros k item Hitem. apply (Hc k item).
  unfold cached in *. cbn in Hitem.
  destruct (dataKeyCache (svc st)) as [c|]; [|discriminate].
  cbn in Hitem. destruct (decide (k = key)) as [->|Hne].
  - now rewrite lookup_delete_eq in Hitem.
  - now rewrite lookup_delete_ne in Hitem.
Qed.

(** An entry is written when the record has been found and its provider
    too. *)
Lemma sound_dataKey_fetch (key : string) : preserves cache_sound (dataKey_fetch key).
Proof.
  intros st H. unfold dataKey_fetch, bind, store_GetDataKey.
  destruct (store_fault _ _);
    [eapply cache_sound_world; [| |exact H]; reflexivity|].
  destruct (records _ !! key) as [rec|] eqn:Hrec;
    [|eapply cache_sound_world; [| |exact H]; reflexivity].
  unfold gets. cbn [svc with_world].
  destruct (providers _ !! _) as [p|] eqn:Hprov;
    [|eapply cache_sound_world; [| |exact H]; reflexivity].
  unfold ret, call_Provider_Decrypt.
  destruct (Provider_Decrypt p _);
    [|eapply cache_sound_world; [| |exact H]; reflexivity..].
  unfold time_Now, cache_set. cbn [svc with_world].
  destruct (dataKeyCache (svc st)) as [c|] eqn:Hcache;
    [|eapply cache_sound_world; [| |exact H]; reflexivity].
  destruct H as [Hp Hc]. split; [exact Hp|].
  intros k item Hitem. unfold cached in Hitem. cbn in Hitem. cbn.
  destruct (decide (k = key)) as [->|Hne].
  - exists rec. split; [exact Hrec|]. rewrite Hprov. now eexists.
  - rewrite lookup_insert_ne in Hitem by congruence.
    apply (Hc k item). unfold cached. now rewrite Hcache.
Qed.

Lemma sound_dataKey (key : string) : preserves cache_sound (dataKey key).
Proof.
  intros st H.
  destruct (String.eqb_spec key "") as [->|Hkey]; [exact H|].
  destruct (cached st key) as [item|] eqn:Hc.
  - destruct (expired item (next_now st)) eqn:Hexp.
    + rewrite (dataKey_evict key st item Hkey Hc Hexp).
      apply sound_dataKey_fetch, cache_sound_delete.
      eapply cache_sound_world; [| |exact H]; reflexivity.
    + rewrite (dataKey_hit key st item Hkey Hc Hexp).
      eapply cache_sound_world; [| |exact H]; reflexivity.
  - rewrite (dataKey_miss key st Hkey Hc). now apply sound_dataKey_fetch.
Qed.

Ltac sound_step :=
  first
    [ apply preserves_ret | apply preserves_fail | apply preserves_lift
    | apply preserves_gets | apply sound_dataKey | apply sound_call_encrypt
    | apply sound_rand_Read | apply sound_store_GetDataKey
    | apply sound_store_CreateDataKey | apply sound_set_providers
    | apply sound_util_set | apply preserves_attempt
    | apply preserves_bind; [|intros ?]
    | match goal with
      | |- preserves _ (match ?x with _ => _ end) => destruct x
      | |- preserves _ (if ?x then _ else _) => destruct x
      end ].

Lemma sound_Encrypt (payload : bytes) : preserves cache_sound (Encrypt payload).
Proof. unfold Encrypt. repeat sound_step. Qed.

Lemma sound_Decrypt (payload : bytes) : preserves cache_sound (Decrypt payload).
Proof. unfold Decrypt. cbv zeta. repeat sound_step. Qed.

Lemma sound_newRandomDataKey (base_key : string) :
  preserves cache_sound (newRandomDataKey base_key).
Proof.
  unfold newRandomDataKey. repeat (first [apply sound_Encrypt | sound_step]).
Qed.

Lemma sound_Init : preserves cache_sound Init.
Proof.
  unfold Init. cbv zeta.
  repeat (first [apply sound_newRandomDataKey | sound_step]).
Qed.

(** In every state of a run the cache holds what was fetched. *)
Lemma reached_cache_sound (st : State) : reached st -> cache_sound st.
Proof.
  induction 1 as [st Hnone Hp|st _ IH|p st _ IH|p st _ IH|key st _ IH].
  - split; [exact Hp|]. intros key item Hitem. now rewrite Hnone in Hitem.
  - now apply sound_Init.
  - now apply sound_Encrypt.
  - now apply sound_Decrypt.
  - now apply sound_dataKey.
Qed.

(** C6.  In every state of a run of the service, for a name that is not
    empty: when the store returns a record whose provider id is not
    registered, [dataKey] fails with the error "could not find
    encryption provider '<id>'" and the cache is afterwards the very
    one of before.  The name has no entry in the cache, since an entry
    is written once the provider of the record has been found. *)
Theorem dataKey_unknown_provider (key : string) (st : State)
    (rec : models.DataKey) :
  reached st ->
  key <> "" ->
  next_fault st = None ->
  records (world st) !! key = Some rec ->
  providers (svc st) !! models.Provider rec = None ->
  cached st key = None
  /\ exists st',
       dataKey key st
       = (Err (Errorf ("could not find encryption provider '"
                       ++ models.Provider rec ++ "'")), st')
       /\ dataKeyCache (svc st') = dataKeyCache (svc st).
Proof.
  intros Hrun Hkey Hf Hr Hp.
  assert (Hc : cached st key = None).
  { destruct (cached st key) as [item|] eqn:Hc; [|reflexivity].
    destruct (reached_cache_sound st Hrun) as [_ Hsound].
    destruct (Hsound key item Hc) as (r & Hr' & [p Hreg]).
    rewrite Hr in Hr'. injection Hr' as <-. congruence. }
  split; [exact Hc|].
  destruct (dataKey_uncached_unknown_provider key st rec Hkey) as (st' & Hrun' & _ & Hsame);
    try assumption.
  - intros item Hitem. congruence.
  - exists st'. split; [exact Hrun'|]. now apply Hsame.
Qed.

(** ** The cache and its time to live *)

(** X18.  When the cache has been made: for a name that is not empty
    and has no entry in it, with a store and a provider that answer and
    an expiry that is not the zero time, a first [dataKey] fetches
    the record and has the provider decrypt it; a second [dataKey], at
    a reading of the clock not after the expiry (the first reading plus
    15 minutes), is served from the cache, so that the two calls have
    made exactly one fetch and one decryption; a further [dataKey], at
    a reading after the expiry, makes a second fetch, and the expired
    entry is gone: the entry of the name is then a new one, or none if
    the call has failed. *)
Theorem dataKey_cache_ttl (key : string) (st : State)
    (c : gmap string dataKeyCacheItem) (rec : models.DataKey)
    (p : Provider) (dk : bytes) :
  let n := clock_reads (world st) in
  let exp := time.Add (clock (world st) n) (15 * time.Minute) in
  key <> "" ->
  dataKeyCache (svc st) = Some c -> c !! key = None ->
  next_fault st = None ->
  records (world st) !! key = Some rec ->
  providers (svc st) !! models.Provider rec = Some p ->
  Provider_Decrypt p (models.EncryptedData rec) = Ok dk ->
  exp <> 0%Z ->
  (clock (world st) (S n) <= exp)%Z ->
  (exp < clock (world st) (S (S n)))%Z ->
  exists st1 st2 r st3,
    dataKey key st = (Ok dk, st1)
    /\ dataKey key st1 = (Ok dk, st2)
    /\ dataKey key st2 = (r, st3)
    /\ trace (world st2) = trace (world st1)
    /\ count is_fetch (trace (world st2)) = S (count is_fetch (trace (world st)))
    /\ count is_provider_decrypt (trace (world st2))
       = S (count is_provider_decrypt (trace (world st)))
    /\ (exists evs,
          trace (world st3) = trace (world st2) ++ EvGetDataKey key :: evs
          /\ count is_fetch (trace (world st3))
             = S (S (count is_fetch (trace (world st)))))
    /\ match r with
       | Ok dk' =>
           exists now,
             cached st3 key
             = Some {| expiry := time.Add now (15 * time.Minute);
                       item_dataKey := dk' |}
       | _ => cached st3 key = None
       end.
Proof.
  tidy.
  intros n exp Hkey Hc Hnone Hf Hr Hp Hd Hexp0 Hin Hout.
  set (item := {| expiry := exp; item_dataKey := dk |}).
  (* the first call *)
  assert (Hmiss : cached st key = None) by (unfold cached; now rewrite Hc).
  pose proof (dataKey_fetch_ok key st rec p dk c Hf Hr Hp Hd Hc) as H1.
  rewrite <- (dataKey_miss key st Hkey Hmiss) in H1.
  match type of H1 with _ = (_, ?s) => set (st1 := s) in * end.
  (* the second call *)
  assert (Hc1 : cached st1 key = Some item).
  { unfold cached, st1. cbn. apply lookup_insert_eq. }
  assert (Hfresh : expired item (next_now st1) = false).
  { unfold expired, item, next_now, st1, time.Before. cbn.
    fold n. fold exp.
    destruct (exp <? clock (world st) (S n))%Z eqn:E; [|reflexivity].
    apply Z.ltb_lt in E. lia. }
  pose proof (dataKey_hit key st1 item Hkey Hc1 Hfresh) as H2.
  match type of H2 with _ = (_, ?s) => set (st2 := s) in * end.
  (* the third call *)
  assert (Hc2 : cached st2 key = Some item) by exact Hc1.
  assert (Hold : expired item (next_now st2) = true).
  { unfold expired, item, next_now, st2, st1, time.Before, time.IsZero. cbn.
    fold n. fold exp.
    apply andb_true_intro. split.
    - now apply Z.ltb_lt.
    - apply negb_true_iff. now apply Z.eqb_neq. }
  pose proof (dataKey_evict key st2 item Hkey Hc2 Hold) as H3.
  match type of H3 with _ = dataKey_fetch _ ?s => set (st2' := s) in * end.
  destruct (dataKey_fetch_trace key st2') as (evs & Htr & Hevs).
  pose proof (dataKey_fetch_cache key st2') as Hcache.
  destruct (dataKey_fetch key st2') as [r st3] eqn:H3'.
  cbn [snd] in Htr.
  exists st1, st2, r, st3.
  assert (Ht1 : trace (world st1)
                = trace (world st)
                    ++ [EvGetDataKey key;
                        EvProviderDecrypt (models.Provider rec)
                          (models.EncryptedData rec)]).
  { unfold st1. cbn. now rewrite <- app_assoc. }
  assert (Ht2 : trace (world st2) = trace (world st1)) by reflexivity.
  repeat split; try assumption.
  - rewrite Ht2, Ht1, count_app. unfold count. cbn. lia.
  - rewrite Ht2, Ht1, count_app. unfold count. cbn. lia.
  - exists evs. split; [exact Htr|].
    rewrite Htr. change (trace (world st2')) with (trace (world st1)).
    rewrite Ht1, <- app_assoc, count_app.
    change (EvGetDataKey key :: evs) with ([EvGetDataKey key] ++ evs).
    rewrite !count_app, Hevs. unfold count. cbn. lia.
  - destruct r as [dk'| |]; [exact Hcache|..].
    all: unfold cached; rewrite Hcache; unfold st2', st2, st1; cbn.
    all: apply lookup_delete_eq.
Qed.

(** ** C4: what [newRandomDataKey] returns *)

(** [newRandomDataKey] fails when the random source fails and when
    [Encrypt] fails; once both have succeeded it returns [nil], whatever
    [CreateDataKey] has returned. *)
Lemma newRandomDataKey_unfold (base_key : string) (st : State) :
  newRandomDataKey base_key st =
  match rand_Read 16 st with
  | (Ok b, st1) =>
      match Encrypt b st1 with
      | (Ok encrypted, st2) =>
          (Ok tt, snd (store_CreateDataKey (new_DataKey base_key st2 encrypted) st2))
      | (Err e, st2) => (Err e, st2)
      | (Panic msg, st2) => (Panic msg, st2)
      end
  | (Err e, st1) => (Err e, st1)
  | (Panic msg, st1) => (Panic msg, st1)
  end.
Proof.
  unfold newRandomDataKey. unfold bind at 1.
  destruct (rand_Read 16 st) as [[b|e|msg] st1]; try reflexivity.
  unfold bind at 1.
  destruct (Encrypt b st1) as [[enc|e|msg] st2]; try reflexivity.
  unfold bind, gets, attempt, store_CreateDataKey, new_DataKey.
  cbn [models.Name].
  destruct (store_fault _ _); [reflexivity|].
  destruct (records _ !! base_key); reflexivity.
Qed.

(** *** [Init], case by case *)

Lemma Init_lookup_error (st : State) (err : error) :
  next_fault st = Some err ->
  errors_Is err ErrDataKeyNotFound = false ->
  Init st = (Err err, after_GetDataKey "root" (registered st)).
Proof.
  intros Hf Hnf. unfold Init, bind, modify, attempt, store_GetDataKey.
  cbv zeta. cbn [world with_svc]. unfold next_fault in Hf. rewrite Hf.
  rewrite Hnf. reflexivity.
Qed.

Lemma Init_root_found (st : State) (rec : models.DataKey) :
  next_fault st = None ->
  records (world st) !! "root" = Some rec ->
  Init st
  = (Ok tt, with_world bind_util (after_GetDataKey "root" (registered st))).
Proof.
  intros Hf Hr. unfold Init, bind, modify, attempt, store_GetDataKey.
  cbv zeta. cbn [world with_svc]. unfold next_fault in Hf. rewrite Hf, Hr.
  reflexivity.
Qed.

Lemma Init_root_not_found (st : State) :
  next_fault st = None ->
  records (world st) !! "root" = None ->
  Init st
  = match newRandomDataKey "root" (after_GetDataKey "root" (registered st)) with
    | (Ok _, st') => (Ok tt, with_world bind_util st')
    | (Err e, st') => (Err e, st')
    | (Panic msg, st') => (Panic msg, st')
    end.
Proof.
  intros Hf Hr. unfold Init, modify, attempt, store_GetDataKey.
  cbv zeta. unfold bind at 1. unfold bind at 1.
  cbn [world with_svc]. unfold next_fault in Hf. rewrite Hf, Hr.
  change (errors_Is ErrDataKeyNotFound ErrDataKeyNotFound) with true. cbv iota.
  unfold bind at 1.
  destruct (newRandomDataKey _ _) as [[[]|e|msg] st']; reflexivity.
Qed.

(** ** The bootstrap of the root key *)

(** X19.  With a store whose calls meet no error: when [Init] has
    succeeded, a second [Init] against the same store succeeds too,
    finds the record named "root" and writes nothing (its one call of
    the store is [GetDataKey("root")], and the records stay as they
    are); over the two calls exactly one record, named "root", has been
    created when there was none before, and none when there was one.
    And when the look-up of "root" fails with an error that is not
    [ErrDataKeyNotFound], [Init] fails with that error and has written
    nothing. *)
Theorem Init_idempotent :
  (forall st st1 : State,
      (forall n, store_fault (world st) n = None) ->
      Init st = (Ok tt, st1) ->
      exists st2,
        Init st1 = (Ok tt, st2)
        /\ trace (world st2) = trace (world st1) ++ [EvGetDataKey "root"]
        /\ records (world st2) = records (world st1)
        /\ match records (world st) !! "root" with
           | Some _ => records (world st1) = records (world st)
           | None =>
               exists rec,
                 models.Name rec = "root"
                 /\ records (world st1) = <["root" := rec]> (records (world st))
           end
        /\ count is_create (trace (world st2))
           = (count is_create (trace (world st))
              + match records (world st) !! "root" with
                | Some _ => 0
                | None => 1
                end)%nat)
  /\ (forall (st : State) (err : error),
         next_fault st = Some err ->
         errors_Is err ErrDataKeyNotFound = false ->
         exists st',
           Init st = (Err err, st')
           /\ records (world st') = records (world st)
           /\ trace (world st') = trace (world st) ++ [EvGetDataKey "root"]).
Proof.
  split.
  - intros st st1 Hnofault Hinit.
    assert (Hf : next_fault st = None) by apply Hnofault.
    destruct (records (world st) !! "root") as [rec|] eqn:Hroot.
    + (* the record is there at the first call *)
      rewrite (Init_root_found st rec Hf Hroot) in Hinit.
      injection Hinit as <-.
      eexists. split; [|split; [|split; [|split]]].
      * eapply Init_root_found; [apply Hnofault | exact Hroot].
      * reflexivity.
      * reflexivity.
      * reflexivity.
      * cbn. rewrite !count_app. unfold count. cbn. lia.
    + (* the first call creates it *)
      rewrite (Init_root_not_found st Hf Hroot) in Hinit.
      rewrite newRandomDataKey_unfold in Hinit.
      set (st_b := after_GetDataKey "root" (registered st)) in *.
      pose proof (reads_rand_Read 16 st_b) as Hrand.
      destruct (rand_Read 16 st_b) as [[b|e|msg] st_c]; try discriminate.
      pose proof (reads_Encrypt b st_c) as Henc.
      destruct (Encrypt b st_c) as [[enc|e|msg] st_d]; try discriminate.
      cbn [snd] in Hrand, Henc.
      destruct (store_untouched_trans _ _ _ Hrand Henc)
        as (Hrec & Hfault & evs & Htr & Hevs).
      injection Hinit as <-.
      set (rec := new_DataKey "root" st_d enc) in *.
      assert (Hcreate :
                store_CreateDataKey rec st_d
                = (Ok tt,
                   with_world (set_records (<["root" := rec]> (records (world st_d))))
                     (with_world (fun w => emit (EvCreateDataKey rec) (count_store_call w))
                        st_d))).
      { unfold store_CreateDataKey. rewrite Hfault. cbn [models.Name rec new_DataKey].
        change (store_fault (world st_b)) with (store_fault (world st)).
        rewrite Hnofault, Hrec. unfold st_b. cbn. rewrite Hroot. reflexivity. }
      rewrite Hcreate. cbn [snd].
      match goal with |- context [Init ?s] => set (st1 := s) end.
      assert (Hroot1 : records (world st1) !! "root" = Some rec).
      { unfold st1. cbn. apply lookup_insert_eq. }
      assert (Hf1 : next_fault st1 = None).
      { unfold next_fault, st1. cbn. rewrite Hfault. apply Hnofault. }
      eexists. split; [|split; [|split; [|split]]].
      * apply (Init_root_found st1 rec Hf1 Hroot1).
      * reflexivity.
      * reflexivity.
      * exists rec. split; [reflexivity|]. unfold st1. cbn. now rewrite Hrec.
      * cbn. rewrite Htr. unfold st_b. cbn.
        rewrite !count_app, (count_no_create evs Hevs). unfold count. cbn. lia.
  - intros st err Hf Hnf. eexists. split; [|split].
    + apply (Init_lookup_error st err Hf Hnf).
    + reflexivity.
    + reflexivity.
Qed.

(** * Further properties of the service *)

(** ** Blobs without envelope *)

(** X1.  A ciphertext sealed under the configured secret, as it was
    stored before there were envelopes, is still opened by [Decrypt]
    when it is not empty and does not start with ['#']: the payload
    comes back and the state is left as it is (neither the cache nor the
    store is looked at). *)
Theorem Decrypt_legacy_roundtrip (r p c : bytes) (st : State) :
  (forall r m k c, encrypt r m k = Ok c -> decrypt c k = Ok m) ->
  encrypt r p (list_byte_of_string SecretKey) = Ok c ->
  c <> [] ->
  hd_error c <> Some hash ->
  Decrypt c st = (Ok p, st).
Proof.
  intros Hcipher Hc Hne Hhd.
  destruct c as [|first rest]; [contradiction|].
  unfold Decrypt. destruct (Byte.eqb first hash) eqn:E.
  - apply Byte.byte_dec_bl in E. subst first. now contradiction Hhd.
  - cbn [negb]. unfold lift. now rewrite (Hcipher _ _ _ _ Hc).
Qed.

(** ** The key name of an envelope *)

(** Induction on a list four elements at a time, as the decoder goes. *)
Section list_ind4.
Context {A : Type} (P : list A -> Prop).
Hypothesis P0 : P [].
Hypothesis P1 : forall a, P [a].
Hypothesis P2 : forall a b, P [a; b].
Hypothesis P3 : forall a b c, P [a; b; c].
Hypothesis P4 : forall a b c d l, P l -> P (a :: b :: c :: d :: l).

Lemma list_ind4 : forall l, P l.
Proof using P0 P1 P2 P3 P4.
  fix IH 1. intros [|a [|b [|c [|d l]]]].
  - exact P0.
  - apply P1.
  - apply P2.
  - apply P3.
  - apply P4, IH.
Qed.
End list_ind4.

(** A byte that is none of the 64 characters has no digit. *)
Lemma decodeMap_outside (x : byte) :
  ~ In x (list_byte_of_string encodeStd) -> decodeMap x = 255.
Proof.
  unfold decodeMap.
  assert (H : forall tab i, ~ In x tab -> index_from i x tab = None).
  { induction tab as [|y tab IH]; intros i Hnot; [reflexivity|].
    cbn [index_from]. destruct (Byte.eqb y x) eqn:E.
    - apply Byte.byte_dec_bl in E. subst y. exfalso. apply Hnot. now left.
    - apply IH. intros Hin. apply Hnot. now right. }
  intros Hnot. now rewrite (H _ 0 Hnot).
Qed.

Lemma eqb_255_true (x : byte) : decodeMap x = 255 -> (decodeMap x =? 255) = true.
Proof. intros ->. reflexivity. Qed.

(** The decoder rejects a sequence that holds a byte without digit. *)
Lemma decode_quanta_invalid (x : byte) (l : bytes) :
  decodeMap x = 255 -> In x l -> decode_quanta l = None.
Proof.
  intros Hx. induction l as [|a|a b|a b c|a b c d l IH] using list_ind4;
    intros Hin.
  - destruct Hin.
  - reflexivity.
  - cbn [decode_quanta].
    destruct Hin as [<-|[<-|[]]]; rewrite (eqb_255_true _ Hx);
      now rewrite ?orb_true_r.
  - cbn [decode_quanta].
    destruct Hin as [<-|[<-|[<-|[]]]]; rewrite (eqb_255_true _ Hx);
      now rewrite ?orb_true_r.
  - cbn [decode_quanta].
    destruct Hin as [<-|[<-|[<-|[<-|Hin]]]];
      try (rewrite (eqb_255_true _ Hx); now rewrite ?orb_true_r).
    rewrite (IH Hin). now destruct (_ || _).
Qed.

(** The decoder rejects a sequence with one character left over. *)
Lemma decode_quanta_leftover (l : bytes) :
  (length l mod 4 = 1)%nat -> decode_quanta l = None.
Proof.
  tidy.
  induction l as [|a|a b|a b c|a b c d l IH] using list_ind4; intros Hlen.
  - discriminate Hlen.
  - reflexivity.
  - discriminate Hlen.
  - discriminate Hlen.
  - cbn [decode_quanta]. rewrite IH; [now destruct (_ || _)|].
    cbn [length] in Hlen.
    replace (S (S (S (S (length l))))) with (length l + 1 * 4)%nat in Hlen by lia.
    now rewrite Nat.Div0.mod_add in Hlen.
Qed.

(** What the decoder writes has [DecodedLen] bytes. *)
Lemma decode_quanta_length (l out : bytes) :
  decode_quanta l = Some out -> length out = DecodedLen (length l).
Proof.
  tidy.
  revert out.
  induction l as [|a|a b|a b c|a b c d l IH] using list_ind4; intros out.
  - intros [= <-]. reflexivity.
  - discriminate.
  - cbn [decode_quanta]. destruct (_ || _); [discriminate|].
    intros [= <-]. reflexivity.
  - cbn [decode_quanta]. destruct (_ || _); [discriminate|].
    intros [= <-]. reflexivity.
  - cbn [decode_quanta]. destruct (_ || _); [discriminate|].
    destruct (decode_quanta l) as [out'|]; [|discriminate].
    intros [= <-]. cbn [length]. rewrite (IH out' eq_refl).
    unfold DecodedLen.
    replace (S (S (S (S (length l)))) * 6)%nat with (length l * 6 + 3 * 8)%nat by lia.
    rewrite Nat.div_add by lia. lia.
Qed.

(** The envelope is cut at the first delimiter after the leading one. *)
Lemma Decrypt_cut (b64Key c : bytes) (st : State) :
  ~ In hash b64Key ->
  Decrypt (hash :: b64Key ++ hash :: c) st =
  match Decode b64Key with
  | None => (Err CorruptInputError, st)
  | Some decoded =>
      (k <- dataKey (string_of_list_byte
                       (copy_at (make (DecodedLen (length b64Key))) 0 decoded)) ;;
       lift (decrypt c k)) st
  end.
Proof.
  tidy.
  intros Hnot. unfold Decrypt. cbv zeta. change (Byte.eqb hash hash) with true.
  cbn [negb drop]. rewrite !drop_0.
  rewrite (Index_hash_first b64Key c Hnot).
  destruct (Z.of_nat _ =? -1)%Z eqn:E; [apply Z.eqb_eq in E; lia|]. clear E.
  rewrite Nat2Z.id, take_app_length.
  replace (Z.to_nat (Z.of_nat (length b64Key) + 1))
    with (length b64Key + 1)%nat by lia.
  rewrite drop_app_add'; [|reflexivity]. cbn [drop].
  destruct (Decode b64Key); reflexivity.
Qed.

(** X2.  An envelope whose key name is not base64 is refused: when the
    bytes between the two delimiters hold a byte that is neither one of
    the 64 characters nor a line break (the padding ['='] is such a
    byte), or when they are free of line breaks and leave one character
    over (a length of 1 modulo 4), [Decrypt] fails with
    [CorruptInputError]; no key is resolved and the state is left as it
    is. *)
Theorem Decrypt_corrupt_key_name (b64Key c : bytes) (st : State) :
  ~ In hash b64Key ->
  (exists x, In x b64Key
             /\ ~ In x (list_byte_of_string encodeStd)
             /\ is_newline x = false)
  \/ (Forall (fun x => is_newline x = false) b64Key
      /\ (length b64Key mod 4 = 1)%nat) ->
  Decrypt (hash :: b64Key ++ hash :: c) st = (Err CorruptInputError, st).
Proof.
  intros Hnot Hbad. rewrite (Decrypt_cut b64Key c st Hnot).
  assert (Hnone : Decode b64Key = None); [|now rewrite Hnone].
  unfold Decode. destruct Hbad as [(x & Hin & Hout & Hnl)|[Hall Hlen]].
  - apply (decode_quanta_invalid x); [now apply decodeMap_outside|].
    apply List.filter_In. split; [exact Hin|]. now rewrite Hnl.
  - apply decode_quanta_leftover.
    replace (List.filter _ b64Key) with b64Key; [exact Hlen|].
    clear Hlen Hnot. induction Hall as [|y l Hy _ IH]; [reflexivity|].
    cbn [List.filter]. rewrite Hy. cbn [negb]. now rewrite <- IH.
Qed.

(** X3.  The key name that [Decrypt] resolves is the whole buffer of
    [DecodedLen(len(b64Key))] bytes, not the bytes that were decoded
    alone: when the bytes between the delimiters decode to [decoded], the
    name is [decoded] followed by zero bytes up to that length.  Without
    line breaks among them there is no such byte and the name is
    [decoded]; each line break may add some. *)
Theorem Decrypt_key_name_buffer (b64Key c decoded : bytes) (st : State) :
  ~ In hash b64Key ->
  Decode b64Key = Some decoded ->
  (length decoded <= DecodedLen (length b64Key))%nat
  /\ (Forall (fun x => is_newline x = false) b64Key ->
      length decoded = DecodedLen (length b64Key))
  /\ Decrypt (hash :: b64Key ++ hash :: c) st
     = (k <- dataKey
               (string_of_list_byte
                  (decoded
                   ++ replicate (DecodedLen (length b64Key) - length decoded) x00)) ;;
        lift (decrypt c k)) st.
Proof.
  intros Hnot Hdec.
  assert (Hlen : length decoded
                 = DecodedLen (length (List.filter (fun c => negb (is_newline c)) b64Key))).
  { now apply decode_quanta_length. }
  assert (Hle : (length decoded <= DecodedLen (length b64Key))%nat).
  { rewrite Hlen. unfold DecodedLen. apply Nat.Div0.div_le_mono.
    apply Nat.mul_le_mono_r, List.filter_length_le. }
  split; [exact Hle|]. split.
  - intros Hall. rewrite Hlen. do 2 f_equal.
    clear Hnot Hdec Hlen Hle. induction Hall as [|y l Hy _ IH]; [reflexivity|].
    cbn [List.filter]. rewrite Hy. cbn [negb]. now rewrite IH.
  - rewrite (Decrypt_cut b64Key c st Hnot), Hdec. do 3 f_equal.
    unfold copy_at. rewrite make_length, Nat.sub_0_r. cbn [take app plus].
    rewrite (take_ge decoded) by exact Hle.
    unfold make. now rewrite drop_replicate.
Qed.

(** ** Resolving a data key: what can go wrong *)

(** X4.  For a name that is not empty and that the cache does not
    answer: when the look-up in the store fails, with the error the call
    meets or with [ErrDataKeyNotFound] when there is no record of the
    name, [dataKey] returns that very error; no provider is called (the
    one event is the look-up), nothing is added to the cache, and the
    records are as before. *)
Theorem dataKey_lookup_fails (key : string) (st : State) (e : error) :
  key <> "" ->
  (forall item, cached st key = Some item -> expired item (next_now st) = true) ->
  next_fault st = Some e
  \/ (next_fault st = None /\ records (world st) !! key = None
      /\ e = ErrDataKeyNotFound) ->
  exists st',
    dataKey key st = (Err e, st')
    /\ dataKeyCache (svc st') = delete key <$> dataKeyCache (svc st)
    /\ trace (world st') = trace (world st) ++ [EvGetDataKey key]
    /\ records (world st') = records (world st).
Proof.
  intros Hkey Hexp Hfail.
  destruct (dataKey_uncached key st Hkey Hexp)
    as (st0 & -> & Hcache & _ & Hf0 & Hr0 & Ht0).
  rewrite (dataKey_fetch_lookup_fails key st0 e) by (now rewrite Hf0, Hr0).
  eexists. split; [reflexivity|]. split; [exact Hcache|].
  cbn. now rewrite Ht0, Hr0.
Qed.

(** A fetch whose decryption fails. *)
Lemma dataKey_fetch_provider_fails (key : string) (st : State)
    (rec : models.DataKey) (p : Provider) (e : error) :
  next_fault st = None ->
  records (world st) !! key = Some rec ->
  providers (svc st) !! models.Provider rec = Some p ->
  Provider_Decrypt p (models.EncryptedData rec) = Err e ->
  dataKey_fetch key st
  = (Err e,
     with_world (emit (EvProviderDecrypt (models.Provider rec)
                         (models.EncryptedData rec)))
       (after_GetDataKey key st)).
Proof.
  intros Hf Hr Hp Hd. unfold dataKey_fetch, bind, store_GetDataKey.
  unfold next_fault in Hf. rewrite Hf, Hr.
  unfold gets. cbn [svc with_world]. rewrite Hp.
  unfold ret, call_Provider_Decrypt. now rewrite Hd.
Qed.

(** X5.  For a name that is not empty and that the cache does not
    answer: when the provider of the record fails to decrypt the data
    key, [dataKey] returns the error of the provider and caches nothing;
    the store has been asked once and the provider once. *)
Theorem dataKey_provider_fails (key : string) (st : State)
    (rec : models.DataKey) (p : Provider) (e : error) :
  key <> "" ->
  (forall item, cached st key = Some item -> expired item (next_now st) = true) ->
  next_fault st = None ->
  records (world st) !! key = Some rec ->
  providers (svc st) !! models.Provider rec = Some p ->
  Provider_Decrypt p (models.EncryptedData rec) = Err e ->
  exists st',
    dataKey key st = (Err e, st')
    /\ dataKeyCache (svc st') = delete key <$> dataKeyCache (svc st)
    /\ trace (world st')
       = trace (world st)
           ++ [EvGetDataKey key;
               EvProviderDecrypt (models.Provider rec) (models.EncryptedData rec)].
Proof.
  intros Hkey Hexp Hf Hr Hp Hd.
  destruct (dataKey_uncached key st Hkey Hexp)
    as (st0 & -> & Hcache & Hp0 & Hf0 & Hr0 & Ht0).
  rewrite (dataKey_fetch_provider_fails key st0 rec p e);
    [| now rewrite Hf0 | now rewrite Hr0 | now rewrite Hp0 | exact Hd].
  eexists. split; [reflexivity|]. split; [exact Hcache|].
  cbn. now rewrite Ht0, <- app_assoc.
Qed.

(** X6.  An entry of the cache is served as long as its expiry is the
    zero time or is not before the reading of the clock: an entry with
    the zero expiry never expires, and an entry is still served at the
    very instant of its expiry.  The call then reads the clock and does
    nothing else: the store is not asked and the cache is as before.
    Otherwise the entry is deleted and the data key fetched. *)
Theorem dataKey_served_from_cache (key : string) (st : State)
    (item : dataKeyCacheItem) :
  key <> "" ->
  cached st key = Some item ->
  ((expiry item = 0 \/ next_now st <= expiry item)%Z ->
   dataKey key st = (Ok (item_dataKey item), with_world count_clock_read st))
  /\ ((expiry item <> 0 /\ expiry item < next_now st)%Z ->
      dataKey key st
      = dataKey_fetch key
          (with_svc (fun s => set_dataKeyCache (delete key <$> dataKeyCache s) s)
             (with_world count_clock_read st))).
Proof.
  intros Hkey Hc. split.
  - intros Hok. apply (dataKey_hit key st item Hkey Hc).
    unfold expired, time.Before, time.IsZero.
    destruct Hok as [-> | Hle].
    + apply andb_false_r.
    + apply andb_false_intro1. now apply Z.ltb_ge.
  - intros [Hnz Hlt]. apply (dataKey_evict key st item Hkey Hc).
    unfold expired, time.Before, time.IsZero.
    apply andb_true_intro. split; [now apply Z.ltb_lt|].
    apply negb_true_iff. now apply Z.eqb_neq.
Qed.

(** X7.  A cache that has never been made is a [nil] map: for a name
    that is not empty, when the store and the provider have answered,
    the assignment of the new entry panics.  The store and the provider
    have been called, the key is not returned, and the cache is still
    [nil]. *)
Theorem dataKey_nil_cache_panics (key : string) (st : State)
    (rec : models.DataKey) (p : Provider) (dk : bytes) :
  key <> "" ->
  dataKeyCache (svc st) = None ->
  next_fault st = None ->
  records (world st) !! key = Some rec ->
  providers (svc st) !! models.Provider rec = Some p ->
  Provider_Decrypt p (models.EncryptedData rec) = Ok dk ->
  exists st',
    dataKey key st = (Panic "assignment to entry in nil map", st')
    /\ dataKeyCache (svc st') = None
    /\ trace (world st')
       = trace (world st)
           ++ [EvGetDataKey key;
               EvProviderDecrypt (models.Provider rec) (models.EncryptedData rec)].
Proof.
  intros Hkey Hnil Hf Hr Hp Hd.
  assert (Hc : cached st key = None) by (unfold cached; now rewrite Hnil).
  rewrite (dataKey_miss key st Hkey Hc).
  unfold dataKey_fetch, bind, store_GetDataKey.
  unfold next_fault in Hf. rewrite Hf, Hr.
  unfold gets. cbn [svc with_world]. rewrite Hp.
  unfold ret, call_Provider_Decrypt. rewrite Hd.
  unfold time_Now, cache_set. cbn [svc with_world]. rewrite Hnil.
  eexists. split; [reflexivity|]. split; [exact Hnil|].
  cbn. now rewrite <- app_assoc.
Qed.

(** What a fetch leaves of the entries of the other names. *)
Lemma dataKey_fetch_others (key k : string) (st : State) :
  k <> key -> cached (snd (dataKey_fetch key st)) k = cached st k.
Proof.
  intros Hk. unfold dataKey_fetch, bind, store_GetDataKey.
  destruct (store_fault _ _); [reflexivity|].
  destruct (records _ !! key) as [rec|]; [|reflexivity].
  unfold gets. cbn [svc with_world].
  destruct (providers _ !! _) as [p|]; [|reflexivity].
  unfold ret, call_Provider_Decrypt.
  destruct (Provider_Decrypt p _); [|reflexivity..].
  unfold time_Now, cache_set. cbn [svc with_world].
  unfold cached. destruct (dataKeyCache (svc st)) as [c|] eqn:Hc; cbn.
  - now apply lookup_insert_ne.
  - now rewrite Hc.
Qed.

(** X8.  [dataKey] touches the entry of the name it resolves and no
    other: whatever the call does (serve, evict, fetch, fail), the
    entries of all other names are afterwards what they were.  The empty
    name, which is answered by the configured secret, is never cached. *)
Theorem dataKey_cache_frame (key k : string) (st : State) :
  (k <> key -> cached (snd (dataKey key st)) k = cached st k)
  /\ (cached st "" = None -> cached (snd (dataKey key st)) "" = None).
Proof.
  assert (Hframe : forall k', k' <> key ->
            cached (snd (dataKey key st)) k' = cached st k').
  { intros k' Hk.
    destruct (String.eqb_spec key "") as [->|Hkey]; [reflexivity|].
    destruct (cached st key) as [item|] eqn:Hc.
    - destruct (expired item (next_now st)) eqn:Hexp.
      + rewrite (dataKey_evict key st item Hkey Hc Hexp), dataKey_fetch_others by exact Hk.
        unfold cached. cbn. destruct (dataKeyCache (svc st)); [|reflexivity].
        cbn. now apply lookup_delete_ne.
      + now rewrite (dataKey_hit key st item Hkey Hc Hexp).
    - now rewrite (dataKey_miss key st Hkey Hc), dataKey_fetch_others. }
  split; [apply Hframe|].
  intros Hempty. destruct (String.eqb_spec key "") as [->|Hkey]; [exact Hempty|].
  rewrite Hframe; [exact Hempty|]. intros Heq. now apply Hkey.
Qed.

(** X9.  The data key that [dataKey] returns for a name that is not
    empty is afterwards the one in the cache under that name, whether it
    was served or fetched; and a call that follows before the entry has
    expired returns the same key and does nothing but read the clock. *)
Theorem dataKey_caches_result (key : string) (st st' : State) (dk : bytes) :
  key <> "" ->
  dataKey key st = (Ok dk, st') ->
  exists item,
    cached st' key = Some item
    /\ item_dataKey item = dk
    /\ (expired item (next_now st') = false ->
        dataKey key st' = (Ok dk, with_world count_clock_read st')).
Proof.
  intros Hkey Hdk.
  assert (Hcached : exists item, cached st' key = Some item /\ item_dataKey item = dk).
  { assert (Hfetch : forall st0, dataKey_fetch key st0 = (Ok dk, st') ->
              exists item, cached st' key = Some item /\ item_dataKey item = dk).
    { intros st0 H0. pose proof (dataKey_fetch_cache key st0) as Hc.
      rewrite H0 in Hc. destruct Hc as [now Hc]. eexists. split; [exact Hc|reflexivity]. }
    destruct (cached st key) as [item|] eqn:Hc.
    - destruct (expired item (next_now st)) eqn:Hexp.
      + rewrite (dataKey_evict key st item Hkey Hc Hexp) in Hdk. eapply Hfetch, Hdk.
      + rewrite (dataKey_hit key st item Hkey Hc Hexp) in Hdk.
        injection Hdk as <- <-. now exists item.
    - rewrite (dataKey_miss key st Hkey Hc) in Hdk. eapply Hfetch, Hdk. }
  destruct Hcached as (item & Hitem & <-).
  exists item. split; [exact Hitem|]. split; [reflexivity|].
  intros Hfresh. apply (dataKey_hit key st' item Hkey Hitem Hfresh).
Qed.

(** ** What the methods leave alone *)

Section keeps.
Context (R : State -> State -> Prop).
Hypothesis R_refl : forall st, R st st.
Hypothesis R_trans : forall st1 st2 st3, R st1 st2 -> R st2 st3 -> R st1 st3.

Lemma keeps_ret {A} (a : A) : keeps R (ret a).
Proof using R_refl. intros st. apply R_refl. Qed.

Lemma keeps_fail {A} (e : error) : keeps R (@fail A e).
Proof using R_refl. intros st. apply R_refl. Qed.

Lemma keeps_lift {A} (r : outcome A) : keeps R (lift r).
Proof using R_refl. intros st. apply R_refl. Qed.

Lemma keeps_gets {A} (f : Secrets -> A) : keeps R (gets f).
Proof using R_refl. intros st. apply R_refl. Qed.

Lemma keeps_bind {A B} (m : M A) (k : A -> M B) :
  keeps R m -> (forall a, keeps R (k a)) -> keeps R (bind m k).
Proof using R_trans.
  intros Hm Hk st. unfold bind. specialize (Hm st).
  destruct (m st) as [[a|e|msg] st1]; cbn [snd] in *; try exact Hm.
  eapply R_trans; [exact Hm|]. apply Hk.
Qed.

Lemma keeps_attempt {A} (m : M A) : keeps R m -> keeps R (attempt m).
Proof using Type.
  intros Hm st. unfold attempt. specialize (Hm st).
  destruct (m st) as [[a|e|msg] st1]; exact Hm.
Qed.
End keeps.

Lemma service_kept_refl (st : State) : service_kept st st.
Proof. repeat split; auto. Qed.

Lemma service_kept_trans (st1 st2 st3 : State) :
  service_kept st1 st2 -> service_kept st2 st3 -> service_kept st1 st3.
Proof.
  intros (H1 & H2 & H3 & H4 & H5) (K1 & K2 & K3 & K4 & K5).
  repeat split; try congruence; tauto.
Qed.

(** A step that changes the world and not the function variables. *)
Ltac kept_world := intros st; repeat split; auto.

Lemma kept_time_Now : keeps service_kept time_Now.
Proof. kept_world. Qed.

Lemma kept_call_encrypt (payload secret : bytes) :
  keeps service_kept (call_encrypt payload secret).
Proof. kept_world. Qed.

Lemma kept_call_Provider_Decrypt (id : string) (p : Provider) (blob : bytes) :
  keeps service_kept (call_Provider_Decrypt id p blob).
Proof. kept_world. Qed.

Lemma kept_store_GetDataKey (name : string) :
  keeps service_kept (store_GetDataKey name).
Proof.
  intros st. unfold store_GetDataKey.
  destruct (store_fault _ _); [repeat split; auto|].
  destruct (records _ !! name); repeat split; auto.
Qed.

Lemma kept_store_CreateDataKey (rec : models.DataKey) :
  keeps service_kept (store_CreateDataKey rec).
Proof.
  intros st. unfold store_CreateDataKey.
  destruct (store_fault _ _); [repeat split; auto|].
  destruct (records _ !! _); repeat split; auto.
Qed.

Lemma kept_rand_Read (n : nat) : keeps service_kept (rand_Read n).
Proof.
  intros st. unfold rand_Read. destruct (rand_src _ _); repeat split; auto.
Qed.

Lemma kept_cache_get (key : string) : keeps service_kept (cache_get key).
Proof. apply keeps_gets, service_kept_refl. Qed.

Lemma kept_cache_delete (key : string) : keeps service_kept (cache_delete key).
Proof.
  intros st. unfold cache_delete, modify.
  split; [reflexivity|]. split; [reflexivity|]. split; [reflexivity|].
  split; [|reflexivity]. cbn.
  destruct (dataKeyCache (svc st)); cbn; split; intros H; (exact H || discriminate H).
Qed.

Lemma kept_cache_set (key : string) (item : dataKeyCacheItem) :
  keeps service_kept (cache_set key item).
Proof.
  intros st. unfold cache_set.
  destruct (dataKeyCache (svc st)) eqn:Hc; cbn.
  - split; [reflexivity|]. split; [reflexivity|]. split; [reflexivity|].
    split; [|reflexivity]. cbn. rewrite Hc. split; intros H; discriminate H.
  - apply service_kept_refl.
Qed.

Ltac kept_step :=
  first
    [ apply keeps_ret, service_kept_refl
    | apply keeps_fail, service_kept_refl
    | apply keeps_lift, service_kept_refl
    | apply keeps_gets, service_kept_refl
    | apply kept_time_Now | apply kept_cache_get | apply kept_cache_delete
    | apply kept_cache_set | apply kept_call_encrypt
    | apply kept_call_Provider_Decrypt | apply kept_store_GetDataKey
    | apply kept_store_CreateDataKey | apply kept_rand_Read
    | apply keeps_attempt
    | apply keeps_bind; [apply service_kept_trans| |intros ?]
    | match goal with
      | |- keeps _ (match ?x with _ => _ end) => destruct x
      end ].

Lemma kept_dataKey (key : string) : keeps service_kept (dataKey key).
Proof. unfold dataKey. repeat kept_step. Qed.

Lemma kept_Encrypt (payload : bytes) : keeps service_kept (Encrypt payload).
Proof. unfold Encrypt. repeat (first [apply kept_dataKey | kept_step]). Qed.

Lemma kept_Decrypt (payload : bytes) : keeps service_kept (Decrypt payload).
Proof.
  unfold Decrypt. cbv zeta. repeat (first [apply kept_dataKey | kept_step]).
Qed.

Lemma kept_newRandomDataKey (base_key : string) :
  keeps service_kept (newRandomDataKey base_key).
Proof.
  unfold newRandomDataKey. repeat (first [apply kept_Encrypt | kept_step]).
Qed.

(** X10.  [dataKey], [Encrypt], [Decrypt] and [newRandomDataKey] change
    nothing of the service but the entries of the cache: whatever the
    input and the outcome, the name of the key to encrypt under, the
    default provider and the registry of providers are afterwards what
    they were, a cache that was [nil] is still [nil] (none of them makes
    the map) and a cache that was made is still made, and the function
    variables of package [util] are not assigned. *)
Theorem methods_keep_service :
  (forall key st, service_kept st (snd (dataKey key st)))
  /\ (forall payload st, service_kept st (snd (Encrypt payload st)))
  /\ (forall payload st, service_kept st (snd (Decrypt payload st)))
  /\ (forall base_key st, service_kept st (snd (newRandomDataKey base_key st))).
Proof.
  split; [|split; [|split]]; intros x st.
  - apply kept_dataKey.
  - apply kept_Encrypt.
  - apply kept_Decrypt.
  - apply kept_newRandomDataKey.
Qed.

(** [Init], in one equation. *)
Lemma Init_cases (st : State) :
  let st0 := after_GetDataKey "root" (registered st) in
  let create :=
    match newRandomDataKey "root" st0 with
    | (Ok _, st') => (Ok tt, with_world bind_util st')
    | (Err e, st') => (Err e, st')
    | (Panic msg, st') => (Panic msg, st')
    end in
  Init st =
  match next_fault st with
  | Some err =>
      if errors_Is err ErrDataKeyNotFound then create else (Err err, st0)
  | None =>
      match records (world st) !! "root" with
      | Some _ => (Ok tt, with_world bind_util st0)
      | None => create
      end
  end.
Proof.
  cbv zeta. unfold Init, modify, attempt, store_GetDataKey, util_set, next_fault.
  cbv zeta. unfold bind at 1. unfold bind at 1. cbn [world with_svc].
  destruct (store_fault _ _) as [err|].
  - destruct (errors_Is err ErrDataKeyNotFound); [|reflexivity].
    unfold bind at 1.
    destruct (newRandomDataKey _ _) as [[[]|e|msg] st']; reflexivity.
  - destruct (records _ !! "root") as [rec|]; [reflexivity|].
    change (errors_Is ErrDataKeyNotFound ErrDataKeyNotFound) with true. cbv iota.
    unfold bind at 1.
    destruct (newRandomDataKey _ _) as [[[]|e|msg] st']; reflexivity.
Qed.

(** X11.  What [Init] does to the service, whether it succeeds or not:
    the registry of providers is afterwards the one provider of the
    configured secret under the id [""], whatever was registered before;
    the name of the key to encrypt under and the default provider are
    kept; the cache is not made (a [nil] cache stays [nil]); and
    [util.Encrypt] and [util.Decrypt] are set when [Init] returns [nil]
    and are left as they were when it returns an error. *)
Theorem Init_effect (st : State) :
  let st' := snd (Init st) in
  providers (svc st')
  = {[ "" := secretKey (fun _ => list_byte_of_string SecretKey) ]}
  /\ defaultEncryptionKey (svc st') = defaultEncryptionKey (svc st)
  /\ defaultProvider (svc st') = defaultProvider (svc st)
  /\ (dataKeyCache (svc st') = None <-> dataKeyCache (svc st) = None)
  /\ match fst (Init st) with
     | Ok _ => util_bound (world st') = true
     | _ => util_bound (world st') = util_bound (world st)
     end.
Proof.
  cbv zeta. rewrite Init_cases. cbv zeta.
  pose proof (kept_newRandomDataKey "root" (after_GetDataKey "root" (registered st)))
    as (H1 & H2 & H3 & H4 & H5).
  assert (Hcreate :
    forall res,
      res = match newRandomDataKey "root" (after_GetDataKey "root" (registered st)) with
            | (Ok _, st') => (Ok tt, with_world bind_util st')
            | (Err e, st') => (Err e, st')
            | (Panic msg, st') => (Panic msg, st')
            end ->
      providers (svc (snd res))
      = {[ "" := secretKey (fun _ => list_byte_of_string SecretKey) ]}
      /\ defaultEncryptionKey (svc (snd res)) = defaultEncryptionKey (svc st)
      /\ defaultProvider (svc (snd res)) = defaultProvider (svc st)
      /\ (dataKeyCache (svc (snd res)) = None <-> dataKeyCache (svc st) = None)
      /\ match fst res with
         | Ok _ => util_bound (world (snd res)) = true
         | _ => util_bound (world (snd res)) = util_bound (world st)
         end).
  { intros res ->.
    destruct (newRandomDataKey _ _) as [[[]|e|msg] s']; cbn [fst snd] in *.
    all: cbn [svc world with_world bind_util util_bound].
    all: rewrite ?H1, ?H2, ?H3, ?H5; repeat split; try reflexivity; apply H4. }
  destruct (next_fault st) as [err|].
  - destruct (errors_Is err ErrDataKeyNotFound).
    + now apply Hcreate.
    + repeat split; auto.
  - destruct (records (world st) !! "root").
    + repeat split; auto.
    + now apply Hcreate.
Qed.

(** ** The bootstrap of a data key *)

Lemma copy_at_length (dst src : bytes) (off : nat) :
  (off <= length dst)%nat -> length (copy_at dst off src) = length dst.
Proof.
  tidy.
  intros Hoff. unfold copy_at.
  rewrite !length_app, !length_take, length_drop. lia.
Qed.

(** The bytes that [rand.Read] has filled are as many as were asked. *)
Lemma rand_Read_length (n : nat) (st st1 : State) (b : bytes) :
  rand_Read n st = (Ok b, st1) -> length b = n.
Proof.
  tidy.
  unfold rand_Read. destruct (rand_src _ _) as [r| |]; try discriminate.
  intros [= <- _]. rewrite copy_at_length; [apply make_length|]. lia.
Qed.

(** X12.  The one write of [newRandomDataKey] comes last and only after
    the random bytes and their encryption have succeeded.  When the call
    returns an error, it has made no [CreateDataKey] and the records are
    as before.  When it returns [nil], a data key of 16 random bytes
    has been sealed by [Encrypt] into an envelope, and the last call made
    is [CreateDataKey] of the record that is active, has the given name,
    the default provider of the service, and that envelope as its
    encrypted data; no other [CreateDataKey] has been made. *)
Theorem newRandomDataKey_writes_last (base_key : string) (st st' : State)
    (r : outcome unit) :
  newRandomDataKey base_key st = (r, st') ->
  match r with
  | Ok _ =>
      exists b st1 encrypted evs,
        rand_Read 16 st = (Ok b, st1)
        /\ length b = 16%nat
        /\ fst (Encrypt b st1) = Ok encrypted
        /\ hd_error encrypted = Some hash
        /\ count is_create evs = 0%nat
        /\ trace (world st')
           = trace (world st) ++ evs
               ++ [EvCreateDataKey
                     {| models.Active := true;
                        models.Name := base_key;
                        models.Provider := defaultProvider (svc st);
                        models.EncryptedData := encrypted |}]
  | _ =>
      records (world st') = records (world st)
      /\ count is_create (trace (world st')) = count is_create (trace (world st))
  end.
Proof.
  tidy.
  rewrite newRandomDataKey_unfold.
  pose proof (reads_rand_Read 16 st) as Hrand.
  pose proof (kept_rand_Read 16 st) as (_ & Hprov1 & _).
  destruct (rand_Read 16 st) as [[b|e|msg] st1] eqn:Hb; cbn [snd] in *.
  - pose proof (reads_Encrypt b st1) as Henc.
    pose proof (kept_Encrypt b st1) as (_ & Hprov2 & _).
    destruct (Encrypt b st1) as [[enc|e|msg] st2] eqn:He; cbn [snd] in *.
    + intros [= <- <-].
      destruct (store_untouched_trans _ _ _ Hrand Henc) as (_ & _ & evs & Htr & Hevs).
      exists b, st1, enc, evs.
      split; [reflexivity|]. split; [apply (rand_Read_length 16 st st1 b Hb)|].
      split; [now rewrite He|].
      split; [apply Encrypt_inv in He as (dk & s & c & _ & _ & _ & ->); reflexivity|].
      split; [now apply count_no_create|].
      unfold new_DataKey. rewrite Hprov2, Hprov1, app_assoc, <- Htr.
      unfold store_CreateDataKey. cbn [models.Name].
      destruct (store_fault _ _); [reflexivity|].
      destruct (records _ !! base_key); reflexivity.
    + intros [= <- <-].
      destruct (store_untouched_trans _ _ _ Hrand Henc) as (Hr & _ & evs & Htr & Hevs).
      split; [exact Hr|]. rewrite Htr, count_app, (count_no_create evs Hevs). lia.
    + intros [= <- <-].
      destruct (store_untouched_trans _ _ _ Hrand Henc) as (Hr & _ & evs & Htr & Hevs).
      split; [exact Hr|]. rewrite Htr, count_app, (count_no_create evs Hevs). lia.
  - intros [= <- <-]. destruct Hrand as (Hr & _ & evs & Htr & Hevs).
    split; [exact Hr|]. rewrite Htr, count_app, (count_no_create evs Hevs). lia.
  - intros [= <- <-]. destruct Hrand as (Hr & _ & evs & Htr & Hevs).
    split; [exact Hr|]. rewrite Htr, count_app, (count_no_create evs Hevs). lia.
Qed.

(** ** The layout of a blob *)

(** X13.  The blob of a successful [Encrypt] is laid out exactly: after
    the leading ['#'] come [EncodedLen(len(key))] characters of the
    alphabet, then the second ['#'], then the output of the cipher and
    nothing else.  The first ['#'] after the leading one is that second
    delimiter, also when the key name or the output of the cipher holds
    a ['#']; the blob is [EncodedLen(len(key)) + 2] bytes longer than
    the output of the cipher. *)
Theorem Encrypt_layout (p blob : bytes) (st st1 : State) :
  Encrypt p st = (Ok blob, st1) ->
  let n := EncodedLen (length (list_byte_of_string (defaultEncryptionKey (svc st)))) in
  Index (drop 1 blob) [hash] = Z.of_nat n
  /\ Forall alphabet (take n (drop 1 blob))
  /\ blob !! S n = Some hash
  /\ (exists r dk, encrypt r p dk = Ok (drop (n + 2) blob))
  /\ length blob = (n + 2 + length (drop (n + 2) blob))%nat.
Proof.
  tidy.
  intros Henc n.
  apply Encrypt_inv in Henc as (dk & st' & c & _ & Hc & _ & ->).
  assert (Hlen : length (Encode (list_byte_of_string (defaultEncryptionKey (svc st)))) = n)
    by apply Encode_length.
  pose proof (Encode_no_hash (list_byte_of_string (defaultEncryptionKey (svc st)))) as Hno.
  pose proof (Encode_alphabet (list_byte_of_string (defaultEncryptionKey (svc st)))) as Hal.
  clearbody n. subst n.
  set (enc := Encode (list_byte_of_string (defaultEncryptionKey (svc st)))) in *.
  clearbody enc.
  assert (Hrest : drop (length enc + 2) (hash :: enc ++ hash :: c) = c).
  { replace (length enc + 2)%nat with (S (length enc + 1)) by lia. cbn [drop].
    now rewrite drop_app_add'. }
  rewrite Hrest. change (drop 1 (hash :: enc ++ hash :: c)) with (enc ++ hash :: c).
  split; [|split; [|split; [|split]]].
  - now rewrite (Index_hash_first enc c Hno).
  - now rewrite take_app_length.
  - change ((enc ++ hash :: c) !! length enc = Some hash).
    rewrite lookup_app_r by lia. now rewrite Nat.sub_diag.
  - now exists (cipher_rand (world st') (cipher_calls (world st'))), dk.
  - cbn [length]. rewrite length_app. cbn [length]. lia.
Qed.

(** X14.  [Encrypt] fails exactly when the data key cannot be resolved
    or the cipher fails, and then with the very error of that step:
    when [dataKey] fails the cipher is not called, and no blob is
    returned in either case. *)
Theorem Encrypt_errors (p : bytes) (st : State) :
  let key := defaultEncryptionKey (svc st) in
  (forall e st1, dataKey key st = (Err e, st1) -> Encrypt p st = (Err e, st1))
  /\ (forall dk st1 e,
         dataKey key st = (Ok dk, st1) ->
         encrypt (cipher_rand (world st1) (cipher_calls (world st1))) p dk = Err e ->
         Encrypt p st = (Err e, with_world count_cipher_call st1))
  /\ (forall e st1,
         Encrypt p st = (Err e, st1) ->
         fst (dataKey key st) = Err e
         \/ exists dk st0,
              dataKey key st = (Ok dk, st0)
              /\ encrypt (cipher_rand (world st0) (cipher_calls (world st0))) p dk
                 = Err e).
Proof.
  cbv zeta. split; [|split].
  - intros e st1 Hdk. rewrite Encrypt_unfold. cbv zeta. unfold bind.
    now rewrite Hdk.
  - intros dk st1 e Hdk Hc. rewrite Encrypt_unfold. cbv zeta. unfold bind.
    rewrite Hdk. unfold call_encrypt. now rewrite Hc.
  - intros e st1. rewrite Encrypt_unfold. cbv zeta. unfold bind.
    destruct (dataKey _ st) as [[dk|e'|msg] st0]; try discriminate.
    + unfold call_encrypt, ret.
      destruct (encrypt _ p dk) as [c|e'|msg] eqn:Hc; try discriminate.
      intros [= <- <-]. right. now exists dk, st0.
    + intros [= <- <-]. now left.
Qed.

(** X15.  [Decrypt] of a blob right after the [Encrypt] that made it
    asks neither the store nor a provider, as long as the key name is
    empty or the data key that [Encrypt] has left in the cache has not
    expired: no event is added, the count of store calls and the
    service, cache included, are as [Encrypt] left them. *)
Theorem Decrypt_after_Encrypt_offline (p blob : bytes) (st st1 : State) :
  Encrypt p st = (Ok blob, st1) ->
  (defaultEncryptionKey (svc st) = ""
   \/ forall item,
        cached st1 (defaultEncryptionKey (svc st)) = Some item ->
        expired item (next_now st1) = false) ->
  let st2 := snd (Decrypt blob st1) in
  trace (world st2) = trace (world st1)
  /\ store_calls (world st2) = store_calls (world st1)
  /\ svc st2 = svc st1.
Proof.
  intros Henc Hcond. cbv zeta.
  pose proof Henc as Hinv.
  apply Encrypt_inv in Hinv as (dk & st' & c & _ & _ & _ & ->).
  rewrite Decrypt_envelope. unfold bind, lift.
  destruct (String.eqb_spec (defaultEncryptionKey (svc st)) "") as [Hempty|Hkey].
  - rewrite Hempty. cbn. repeat split.
  - destruct Hcond as [Hempty|Hfresh]; [contradiction|].
    destruct (Encrypt_caches p _ st st1 Henc Hkey) as (item & Hitem & _).
    rewrite (dataKey_hit _ st1 item Hkey Hitem (Hfresh item Hitem)).
    cbn. repeat split.
Qed.

(** ** A blob names its key *)

(** An envelope is cut in one way only. *)
Lemma envelope_cut_unique (enc1 enc2 c1 c2 : bytes) :
  ~ In hash enc1 -> ~ In hash enc2 ->
  enc1 ++ hash :: c1 = enc2 ++ hash :: c2 ->
  enc1 = enc2 /\ c1 = c2.
Proof.
  tidy.
  intros H1 H2 Heq.
  assert (Hlen : length enc1 = length enc2).
  { pose proof (Index_hash_first enc1 c1 H1) as I1.
    pose proof (Index_hash_first enc2 c2 H2) as I2.
    rewrite Heq in I1. rewrite I1 in I2. lia. }
  assert (Henc : enc1 = enc2).
  { rewrite <- (take_app_length enc1 (hash :: c1)), Heq, Hlen.
    apply take_app_length. }
  split; [exact Henc|]. subst enc2.
  apply app_inv_head in Heq. now injection Heq.
Qed.

(** X16.  A blob tells the name of the key it was encrypted under, and
    its ciphertext: when two calls of [Encrypt], in whatever states,
    have returned the same blob, the services had the same
    [defaultEncryptionKey] and the cipher had given the same output.
    The name is read back in one way only, also when it holds a ['#']. *)
Theorem Encrypt_blob_names_key (p1 p2 blob : bytes) (st1 st1' st2 st2' : State) :
  Encrypt p1 st1 = (Ok blob, st1') ->
  Encrypt p2 st2 = (Ok blob, st2') ->
  defaultEncryptionKey (svc st1) = defaultEncryptionKey (svc st2)
  /\ exists c r1 k1 r2 k2,
       encrypt r1 p1 k1 = Ok c /\ encrypt r2 p2 k2 = Ok c
       /\ blob = hash :: Encode (list_byte_of_string (defaultEncryptionKey (svc st1)))
                   ++ hash :: c.
Proof.
  intros H1 H2.
  apply Encrypt_inv in H1 as (dk1 & s1 & c1 & _ & Hc1 & _ & ->).
  apply Encrypt_inv in H2 as (dk2 & s2 & c2 & _ & Hc2 & _ & Heq).
  injection Heq as Heq.
  apply envelope_cut_unique in Heq as [Henc <-]; try apply Encode_no_hash.
  assert (Hkey : defaultEncryptionKey (svc st1) = defaultEncryptionKey (svc st2)).
  { rewrite <- (string_of_list_byte_of_string (defaultEncryptionKey (svc st1))).
    rewrite <- (string_of_list_byte_of_string (defaultEncryptionKey (svc st2))).
    f_equal.
    pose proof (Decode_Encode (list_byte_of_string (defaultEncryptionKey (svc st1)))) as D1.
    pose proof (Decode_Encode (list_byte_of_string (defaultEncryptionKey (svc st2)))) as D2.
    rewrite Henc, D2 in D1. now injection D1. }
  split; [exact Hkey|].
  exists c1. do 4 eexists. split; [exact Hc1|]. split; [exact Hc2|]. reflexivity.
Qed.

(** ** The root key after the bootstrap *)

(** What a successful [Init] has stored when there was no root key. *)
Lemma Init_creates_root (st st1 : State) :
  (forall n, store_fault (world st) n = None) ->
  records (world st) !! "root" = None ->
  Init st = (Ok tt, st1) ->
  exists rest,
    records (world st1) !! "root"
    = Some {| models.Active := true;
              models.Name := "root";
              models.Provider := defaultProvider (svc st);
              models.EncryptedData := hash :: rest |}
    /\ store_fault (world st1) = store_fault (world st)
    /\ providers (svc st1)
       = {[ "" := secretKey (fun _ => list_byte_of_string SecretKey) ]}.
Proof.
  intros Hnofault Hroot Hinit.
  assert (Hf : next_fault st = None) by apply Hnofault.
  rewrite (Init_root_not_found st Hf Hroot) in Hinit.
  rewrite newRandomDataKey_unfold in Hinit.
  set (st_b := after_GetDataKey "root" (registered st)) in *.
  pose proof (reads_rand_Read 16 st_b) as Hrand.
  pose proof (kept_rand_Read 16 st_b) as (_ & Hp1 & Hq1 & _).
  destruct (rand_Read 16 st_b) as [[b|e|msg] st_c]; try discriminate.
  pose proof (reads_Encrypt b st_c) as Henc.
  pose proof (kept_Encrypt b st_c) as (_ & Hp2 & Hq2 & _).
  destruct (Encrypt b st_c) as [[enc|e|msg] st_d] eqn:He; try discriminate.
  cbn [snd] in *.
  destruct (store_untouched_trans _ _ _ Hrand Henc) as (Hrec & Hfault & _).
  apply Encrypt_inv in He as (dk & s & c & _ & _ & _ & ->).
  injection Hinit as <-.
  unfold store_CreateDataKey, new_DataKey. cbn [models.Name].
  rewrite Hfault. change (store_fault (world st_b)) with (store_fault (world st)).
  rewrite Hnofault, Hrec.
  change (records (world st_b)) with (records (world st)). rewrite Hroot.
  eexists. split; [|split].
  - cbn. rewrite lookup_insert_eq, Hp2, Hp1. reflexivity.
  - cbn. exact Hfault.
  - cbn. now rewrite Hq2, Hq1.
Qed.

(** X17.  The root key that [Init] has created is stored as the envelope
    that [Encrypt] made of it, under the default provider of the
    service, while [Init] registers the one provider [""].  So when the
    name "root" is resolved afterwards (the cache not answering): if
    the default provider is not [""], [dataKey] fails with "could not
    find encryption provider", the store having been asked; and if it is
    [""], the provider is handed the whole envelope, leading ['#'] and
    key name included, not the output of the cipher alone. *)
Theorem root_key_after_Init (st st1 : State) :
  (forall n, store_fault (world st) n = None) ->
  records (world st) !! "root" = None ->
  Init st = (Ok tt, st1) ->
  cached st1 "root" = None ->
  exists rest,
    (models.EncryptedData <$> records (world st1) !! "root") = Some (hash :: rest)
    /\ (defaultProvider (svc st) <> "" ->
        dataKey "root" st1
        = (Err (Errorf ("could not find encryption provider '"
                        ++ defaultProvider (svc st) ++ "'")),
           after_GetDataKey "root" st1))
    /\ (defaultProvider (svc st) = "" ->
        trace (world (snd (dataKey "root" st1)))
        = trace (world st1)
            ++ [EvGetDataKey "root"; EvProviderDecrypt "" (hash :: rest)]).
Proof.
  intros Hnofault Hroot Hinit Hmiss.
  destruct (Init_creates_root st st1 Hnofault Hroot Hinit)
    as (rest & Hrec & Hfault & Hprov).
  assert (Hf1 : next_fault st1 = None).
  { unfold next_fault. rewrite Hfault. apply Hnofault. }
  assert (Hne : "root" <> "") by discriminate.
  exists rest. split; [now rewrite Hrec|]. split.
  - intros Hdp. rewrite (dataKey_miss "root" st1 Hne Hmiss).
    rewrite (dataKey_fetch_unknown_provider "root" st1 _ Hf1 Hrec); [reflexivity|].
    cbn [models.Provider]. rewrite Hprov. apply lookup_singleton_ne.
    intros Heq. now apply Hdp.
  - intros Hdp. rewrite (dataKey_miss "root" st1 Hne Hmiss).
    unfold dataKey_fetch, bind, store_GetDataKey.
    unfold next_fault in Hf1. rewrite Hf1, Hrec.
    unfold gets. cbn [svc with_world models.Provider models.EncryptedData].
    rewrite Hprov, Hdp, lookup_singleton_eq.
    unfold ret, call_Provider_Decrypt.
    destruct (Provider_Decrypt _ _);
      [|cbn; now rewrite <- app_assoc..].
    unfold time_Now, cache_set. cbn [svc with_world].
    destruct (dataKeyCache (svc st1)); cbn; now rewrite <- app_assoc.
Qed.

(** * Where the code departs from what is said of it *)

(** ** C7: the cache is never made *)

(** What [Init] leaves of the registry and of a cache that was not
    made. *)
Lemma Init_service (st : State) :
  providers (svc (snd (Init st)))
  = {[ "" := secretKey (fun _ => list_byte_of_string SecretKey) ]}
  /\ (dataKeyCache (svc st) = None -> dataKeyCache (svc (snd (Init st))) = None).
Proof.
  rewrite Init_cases. cbv zeta.
  pose proof (kept_newRandomDataKey "root" (after_GetDataKey "root" (registered st)))
    as (_ & _ & H3 & H4 & _).
  assert (Hcreate :
    forall res,
      res = match newRandomDataKey "root" (after_GetDataKey "root" (registered st)) with
            | (Ok _, st') => (Ok tt, with_world bind_util st')
            | (Err e, st') => (Err e, st')
            | (Panic msg, st') => (Panic msg, st')
            end ->
      providers (svc (snd res))
      = {[ "" := secretKey (fun _ => list_byte_of_string SecretKey) ]}
      /\ (dataKeyCache (svc st) = None -> dataKeyCache (svc (snd res)) = None)).
  { intros res ->.
    destruct (newRandomDataKey _ _) as [[[]|e|msg] s']; cbn [fst snd] in *.
    all: cbn [svc world with_world].
    all: rewrite H3; split; [reflexivity|]; intros Hnil; now apply H4. }
  destruct (next_fault st) as [err|].
  - destruct (errors_Is err ErrDataKeyNotFound); [now apply Hcreate|].
    split; [reflexivity|]. intros Hnil. exact Hnil.
  - destruct (records (world st) !! "root"); [|now apply Hcreate].
    split; [reflexivity|]. intros Hnil. exact Hnil.
Qed.

(** A fetch into a cache that was not made. *)
Lemma dataKey_fetch_nil (key : string) (st : State) (rec : models.DataKey)
    (p : Provider) (dk : bytes) :
  dataKeyCache (svc st) = None ->
  next_fault st = None ->
  records (world st) !! key = Some rec ->
  providers (svc st) !! models.Provider rec = Some p ->
  Provider_Decrypt p (models.EncryptedData rec) = Ok dk ->
  dataKey_fetch key st
  = (Panic "assignment to entry in nil map",
     with_world count_clock_read
       (with_world (emit (EvProviderDecrypt (models.Provider rec)
                            (models.EncryptedData rec)))
          (after_GetDataKey key st))).
Proof.
  intros Hnil Hf Hr Hp Hd. unfold dataKey_fetch, bind, store_GetDataKey.
  unfold next_fault in Hf. rewrite Hf, Hr.
  unfold gets. cbn [svc with_world]. rewrite Hp.
  unfold ret, call_Provider_Decrypt. rewrite Hd.
  unfold time_Now, cache_set. cbn [svc with_world]. now rewrite Hnil.
Qed.

(** C7.  The cache of the service is a map that no code makes: the
    struct starts with a [nil] map and [Init] leaves it so.  For a name
    that is not empty, whose record the store holds under the provider
    that [Init] registers: after [Init], a first [dataKey] fetches the
    record, has it decrypted, and panics at the assignment of the entry;
    a second [dataKey] does the same again.  No call is served from the
    cache: the two calls have made two fetches and two decryptions, and
    the cache is still [nil]. *)
Theorem dataKey_cache_not_made (key : string) (st0 st : State)
    (rec : models.DataKey) (dk : bytes) :
  dataKeyCache (svc st0) = None ->
  Init st0 = (Ok tt, st) ->
  key <> "" ->
  records (world st) !! key = Some rec ->
  models.Provider rec = "" ->
  decrypt (models.EncryptedData rec) (list_byte_of_string SecretKey) = Ok dk ->
  next_fault st = None ->
  store_fault (world st) (S (store_calls (world st))) = None ->
  exists st1 st2,
    dataKey key st = (Panic "assignment to entry in nil map", st1)
    /\ dataKey key st1 = (Panic "assignment to entry in nil map", st2)
    /\ dataKeyCache (svc st2) = None
    /\ count is_fetch (trace (world st2))
       = S (S (count is_fetch (trace (world st))))
    /\ count is_provider_decrypt (trace (world st2))
       = S (S (count is_provider_decrypt (trace (world st)))).
Proof.
  intros Hzero Hinit Hkey Hr Hid Hd Hf Hf'.
  destruct (Init_service st0) as [Hprov Hnil]. specialize (Hnil Hzero).
  rewrite Hinit in Hprov, Hnil. cbn [snd] in Hprov, Hnil.
  set (p := secretKey (fun _ => list_byte_of_string SecretKey)) in *.
  assert (Hp : providers (svc st) !! models.Provider rec = Some p).
  { rewrite Hprov, Hid. apply lookup_singleton_eq. }
  assert (Hc : cached st key = None) by (unfold cached; now rewrite Hnil).
  pose proof (dataKey_fetch_nil key st rec p dk Hnil Hf Hr Hp Hd) as H1.
  rewrite <- (dataKey_miss key st Hkey Hc) in H1.
  match type of H1 with _ = (_, ?s) => set (st1 := s) in * end.
  assert (Hnil1 : dataKeyCache (svc st1) = None) by exact Hnil.
  assert (Hc1 : cached st1 key = None) by (unfold cached; now rewrite Hnil1).
  pose proof (dataKey_fetch_nil key st1 rec p dk Hnil1 Hf' Hr Hp Hd) as H2.
  rewrite <- (dataKey_miss key st1 Hkey Hc1) in H2.
  match type of H2 with _ = (_, ?s) => set (st2 := s) in * end.
  exists st1, st2. split; [exact H1|]. split; [exact H2|]. split; [exact Hnil|].
  assert (Ht : trace (world st2)
               = trace (world st)
                   ++ [EvGetDataKey key;
                       EvProviderDecrypt (models.Provider rec) (models.EncryptedData rec);
                       EvGetDataKey key;
                       EvProviderDecrypt (models.Provider rec) (models.EncryptedData rec)]).
  { unfold st2, st1. cbn. now rewrite <- !app_assoc. }
  rewrite Ht, !count_app. unfold count. cbn. split; lia.
Qed.

(** ** C8: the write that is lost *)

(** The call [CreateDataKey] is in the trace whatever it returns. *)
Lemma store_CreateDataKey_trace (rec : models.DataKey) (st : State) :
  trace (world (snd (store_CreateDataKey rec st)))
  = trace (world st) ++ [EvCreateDataKey rec].
Proof.
  unfold store_CreateDataKey.
  destruct (store_fault _ _); [reflexivity|].
  destruct (records _ !! _); reflexivity.
Qed.

(** C8.  [Init] is not idempotent when the write of the root key is
    lost.  The record "root" is not there, the random bytes are drawn
    and sealed, and [CreateDataKey] meets an error: [Init] returns [nil]
    all the same (the error is assigned and not returned), and no
    record has been stored.  A second [Init] that returns [nil] has then
    not found the record and has called [CreateDataKey] again: the two
    calls have made two writes. *)
Theorem Init_lost_write (st stc std : State) (b encrypted : bytes) (e : error) :
  next_fault st = None ->
  records (world st) !! "root" = None ->
  rand_Read 16 (after_GetDataKey "root" (registered st)) = (Ok b, stc) ->
  Encrypt b stc = (Ok encrypted, std) ->
  next_fault std = Some e ->
  exists st1,
    Init st = (Ok tt, st1)
    /\ records (world st1) = records (world st)
    /\ count is_create (trace (world st1)) = S (count is_create (trace (world st)))
    /\ forall st2,
         next_fault st1 = None ->
         Init st1 = (Ok tt, st2) ->
         exists rec,
           models.Name rec = "root"
           /\ last (trace (world st2)) = Some (EvCreateDataKey rec)
           /\ count is_create (trace (world st2))
              = S (S (count is_create (trace (world st)))).
Proof.
  intros Hf Hroot Hrand Henc Hlost.
  rewrite (Init_root_not_found st Hf Hroot), newRandomDataKey_unfold, Hrand, Henc.
  cbn [snd].
  pose proof (reads_rand_Read 16 (after_GetDataKey "root" (registered st))) as Hr1.
  pose proof (reads_Encrypt b stc) as Hr2.
  rewrite Hrand in Hr1. rewrite Henc in Hr2. cbn [snd] in Hr1, Hr2.
  destruct (store_untouched_trans _ _ _ Hr1 Hr2) as (Hrec & _ & evs & Htr & Hevs).
  set (rec := new_DataKey "root" std encrypted) in *.
  assert (Hcreate :
            store_CreateDataKey rec std
            = (Err e, with_world (fun w => emit (EvCreateDataKey rec) (count_store_call w))
                        std)).
  { unfold store_CreateDataKey. unfold next_fault in Hlost. now rewrite Hlost. }
  rewrite Hcreate. cbn [snd].
  eexists. split; [reflexivity|].
  match goal with |- context [Init ?s] => set (st1 := s) end.
  assert (Hrec1 : records (world st1) = records (world st)) by exact Hrec.
  assert (Htr1 : trace (world st1)
                 = trace (world st) ++ EvGetDataKey "root" :: evs ++ [EvCreateDataKey rec]).
  { unfold st1. cbn. rewrite Htr. cbn. now rewrite <- !app_assoc. }
  assert (Hcount1 : count is_create (trace (world st1))
                    = S (count is_create (trace (world st)))).
  { rewrite Htr1.
    change (EvGetDataKey "root" :: evs ++ [EvCreateDataKey rec])
      with ([EvGetDataKey "root"] ++ evs ++ [EvCreateDataKey rec]).
    rewrite !count_app, (count_no_create evs Hevs). unfold count. cbn. lia. }
  split; [exact Hrec1|]. split; [exact Hcount1|].
  intros st2 Hf1 Hinit2.
  assert (Hroot1 : records (world st1) !! "root" = None) by now rewrite Hrec1.
  rewrite (Init_root_not_found st1 Hf1 Hroot1), newRandomDataKey_unfold in Hinit2.
  set (stb := after_GetDataKey "root" (registered st1)) in *.
  pose proof (reads_rand_Read 16 stb) as Hr3.
  destruct (rand_Read 16 stb) as [[b'|e'|msg] stc']; try discriminate.
  pose proof (reads_Encrypt b' stc') as Hr4.
  destruct (Encrypt b' stc') as [[enc'|e'|msg] std']; try discriminate.
  cbn [snd] in Hr3, Hr4.
  destruct (store_untouched_trans _ _ _ Hr3 Hr4) as (_ & _ & evs' & Htr' & Hevs').
  injection Hinit2 as <-.
  exists (new_DataKey "root" std' enc'). split; [reflexivity|].
  change (trace (world (with_world bind_util ?s))) with (trace (world s)).
  rewrite store_CreateDataKey_trace. split; [apply last_snoc|].
  assert (Htb : trace (world stb) = trace (world st1) ++ [EvGetDataKey "root"])
    by reflexivity.
  rewrite Htr', Htb, !count_app, Hcount1, (count_no_create evs' Hevs').
  unfold count. cbn. lia.
Qed.

End Secrets.

(** * The properties on a run *)

(** The cipher of [example] opens what it has sealed. *)
Lemma example_cipher (r m k c : bytes) :
  example.encrypt r m k = Ok c -> example.decrypt c k = Ok m.
Proof.
  unfold example.encrypt, example.decrypt. intros [= <-].
  assert (H : HasPrefix (k ++ m) k = true).
  { induction k as [|b k IH]; [reflexivity|].
    cbn [app HasPrefix]. rewrite IH.
    now rewrite (@Byte.byte_dec_lb b b eq_refl). }
  rewrite H. now rewrite drop_app_length.
Qed.

Lemma pair_eta {A B} (x : A * B) (a : A) : fst x = a -> x = (a, snd x).
Proof. intros <-. now destruct x. Qed.

(** Under the data key "k", bytes that are no text come back while the
    key is in the cache. *)
Lemma Decrypt_Encrypt_roundtrip_witness :
  let enc := Encrypt example.SecretKey example.encrypt example.payload example.st_k in
  let blob := list_byte_of_string "#aw#0123456789abcdef" ++ example.payload in
  enc = (Ok blob, snd enc)
  /\ Decrypt example.SecretKey example.decrypt blob (snd enc)
     = (Ok example.payload, with_world count_clock_read (snd enc)).
Proof.
  intros enc blob.
  assert (H : enc = (Ok blob, snd enc)).
  { apply pair_eta. vm_compute. reflexivity. }
  split; [exact H|].
  destruct (Decrypt_Encrypt_roundtrip example.SecretKey example.encrypt
              example.decrypt example.payload blob example.st_k (snd enc)
              example_cipher H) as (dk & _ & _ & Hcached & Hlater).
  destruct Hcached as (item & Hitem & Hdk); [discriminate|].
  destruct (Hlater (snd enc)) as (Hserved & _ & _); [discriminate|].
  apply (Hserved item Hitem); [|exact Hdk].
  vm_compute in Hitem. injection Hitem as <-. vm_compute. reflexivity.
Defined.

(** C1, as it stands, fails.  The service is initialised and encrypts
    under the data key "k", which [Encrypt] leaves in the cache at two
    seconds.  At seventeen minutes the entry has expired, [Decrypt]
    asks the store again, the call meets a deadline, and [Decrypt]
    returns that error and not the payload. *)
Lemma Decrypt_Encrypt_roundtrip_lapse :
  let init := Init example.SecretKey example.encrypt example.decrypt example.st_lapse in
  let enc := Encrypt example.SecretKey example.encrypt example.payload (snd init) in
  let blob := list_byte_of_string "#aw#0123456789abcdef" ++ example.payload in
  fst init = Ok tt
  /\ fst enc = Ok blob
  /\ fst (Decrypt example.SecretKey example.decrypt blob (snd enc))
     = Err (Errorf "context deadline exceeded")
  /\ ~ (forall (p blob : bytes) (st st1 : State),
           Encrypt example.SecretKey example.encrypt p st = (Ok blob, st1) ->
           fst (Decrypt example.SecretKey example.decrypt blob st1) = Ok p).
Proof.
  intros init enc blob.
  assert (Henc : fst enc = Ok blob) by (vm_compute; reflexivity).
  assert (Hdec : fst (Decrypt example.SecretKey example.decrypt blob (snd enc))
                 = Err (Errorf "context deadline exceeded"))
    by (vm_compute; reflexivity).
  split; [vm_compute; reflexivity|]. split; [exact Henc|]. split; [exact Hdec|].
  intros Hall.
  specialize (Hall example.payload blob (snd init) (snd enc) (pair_eta enc _ Henc)).
  rewrite Hdec in Hall. discriminate Hall.
Qed.

(** The blob "#abc" has no closing delimiter. *)
Lemma Decrypt_malformed_envelope_witness :
  ~ In hash (list_byte_of_string "abc")
  /\ Decrypt example.SecretKey example.decrypt
       (hash :: list_byte_of_string "abc") example.st_k
     = (Err (Errorf "could not find valid key in encrypted payload"), example.st_k).
Proof.
  assert (H : ~ In hash (list_byte_of_string "abc")).
  { intros [H|[H|[H|[]]]]; discriminate H. }
  split; [exact H|].
  apply (Decrypt_malformed_envelope example.SecretKey example.decrypt _ _ H).
Defined.

(** Under the empty key name the blob is "##" and the sealed payload. *)
Lemma Encrypt_empty_key_name_witness :
  let enc := Encrypt example.SecretKey example.encrypt example.payload example.st_static in
  let blob := list_byte_of_string "##SW2YcwTIb9zpOOhoPsMm" ++ example.payload in
  enc = (Ok blob, snd enc)
  /\ take 2 blob = [hash; hash]
  /\ forall st2 : State,
       Decrypt example.SecretKey example.decrypt blob st2
       = (example.decrypt (drop 2 blob) (list_byte_of_string example.SecretKey), st2).
Proof.
  intros enc blob.
  assert (H : enc = (Ok blob, snd enc)).
  { apply pair_eta. vm_compute. reflexivity. }
  split; [exact H|].
  apply (Encrypt_empty_key_name example.SecretKey example.encrypt example.decrypt
           example.payload blob example.st_static (snd enc) eq_refl H).
Defined.

(** Under the data key "k" the blob starts with ['#']. *)
Lemma Encrypt_is_envelope_witness :
  let enc := Encrypt example.SecretKey example.encrypt example.payload example.st_k in
  let blob := list_byte_of_string "#aw#0123456789abcdef" ++ example.payload in
  enc = (Ok blob, snd enc)
  /\ length blob <> 0%nat
  /\ hd_error blob = Some hash
  /\ Decrypt_route blob = Envelope
  /\ exists c,
       blob = hash :: base64.Encode (list_byte_of_string "k") ++ hash :: c
       /\ forall st2 : State,
            Decrypt example.SecretKey example.decrypt blob st2
            = (k <- dataKey example.SecretKey "k" ;; lift (example.decrypt c k)) st2.
Proof.
  intros enc blob.
  assert (H : enc = (Ok blob, snd enc)).
  { apply pair_eta. vm_compute. reflexivity. }
  split; [exact H|].
  apply (Encrypt_is_envelope example.SecretKey example.encrypt example.decrypt
           example.payload blob example.st_k (snd enc) H).
Defined.

(** C4.  With a store whose every call meets a deadline,
    [newRandomDataKey] returns [nil] although [CreateDataKey] has failed
    and no record "root" exists; and with a store that fails at the
    second call only, [Init] returns [nil] and there is no root key. *)
Lemma newRandomDataKey_drops_store_error :
  let run := newRandomDataKey example.SecretKey example.encrypt "root" example.st_down in
  let init := Init example.SecretKey example.encrypt example.decrypt example.st_flaky in
  fst run = Ok tt
  /\ count is_create (trace (world (snd run))) = 1%nat
  /\ records (world (snd run)) !! "root" = None
  /\ fst init = Ok tt
  /\ count is_create (trace (world (snd init))) = 1%nat
  /\ records (world (snd init)) !! "root" = None.
Proof.
  repeat split; vm_compute; reflexivity.
Qed.

(** After [Init], the record "k" names the provider "kms", which is not
    registered: [dataKey] fails and the cache is as it was. *)
Lemma dataKey_unknown_provider_witness :
  let st := snd (Init example.SecretKey example.encrypt example.decrypt
                   example.st_unknown) in
  cached st "k" = None
  /\ exists st',
       dataKey example.SecretKey "k" st
       = (Err (Errorf "could not find encryption provider 'kms'"), st')
       /\ dataKeyCache (svc st') = dataKeyCache (svc st).
Proof.
  intros st.
  apply (dataKey_unknown_provider example.SecretKey example.encrypt
           example.decrypt "k" st (example.record_k "kms")).
  - apply reached_Init, reached_start.
    + intros key. apply lookup_empty.
    + intros id [p Hp]. cbn in Hp.
      apply lookup_singleton_Some in Hp as [<- _]. reflexivity.
  - discriminate.
  - vm_compute. reflexivity.
  - vm_compute. reflexivity.
  - vm_compute. reflexivity.
Defined.

(** The zero value of the service, [Init], and two calls of [dataKey]
    for the record "k". *)
Lemma dataKey_cache_not_made_witness :
  let st := snd (Init example.SecretKey example.encrypt example.decrypt
                   example.st_fresh) in
  exists st1 st2,
    dataKey example.SecretKey "k" st = (Panic "assignment to entry in nil map", st1)
    /\ dataKey example.SecretKey "k" st1 = (Panic "assignment to entry in nil map", st2)
    /\ dataKeyCache (svc st2) = None
    /\ count is_fetch (trace (world st2))
       = S (S (count is_fetch (trace (world st))))
    /\ count is_provider_decrypt (trace (world st2))
       = S (S (count is_provider_decrypt (trace (world st)))).
Proof.
  intros st.
  apply (dataKey_cache_not_made example.SecretKey example.encrypt example.decrypt
           "k" example.st_fresh st (example.record_k "") example.key_k).
  - reflexivity.
  - apply pair_eta. vm_compute. reflexivity.
  - discriminate.
  - vm_compute. reflexivity.
  - reflexivity.
  - vm_compute. reflexivity.
  - vm_compute. reflexivity.
  - vm_compute. reflexivity.
Defined.

(** The second call of the store, the [CreateDataKey] of the first
    [Init], meets a deadline; both calls of [Init] return
    [nil], and the second one writes the root key. *)
Lemma Init_lost_write_witness :
  let init := Init example.SecretKey example.encrypt example.decrypt in
  let st1 := snd (init example.st_flaky) in
  fst (init st1) = Ok tt
  /\ records (world (snd (init st1))) !! "root" <> None
  /\ exists st1',
       init example.st_flaky = (Ok tt, st1')
       /\ records (world st1') = records (world example.st_flaky)
       /\ count is_create (trace (world st1'))
          = S (count is_create (trace (world example.st_flaky)))
       /\ forall st2,
            next_fault st1' = None ->
            init st1' = (Ok tt, st2) ->
            exists rec,
              models.Name rec = "root"
              /\ last (trace (world st2)) = Some (EvCreateDataKey rec)
              /\ count is_create (trace (world st2))
                 = S (S (count is_create (trace (world example.st_flaky)))).
Proof.
  intros init st1.
  split; [vm_compute; reflexivity|]. split; [vm_compute; discriminate|].
  set (rnd := rand_Read 16
                (after_GetDataKey "root"
                   (registered example.SecretKey example.encrypt example.decrypt
                      example.st_flaky))).
  set (enc := Encrypt example.SecretKey example.encrypt example.key_k (snd rnd)).
  apply (Init_lost_write example.SecretKey example.encrypt example.decrypt
           example.st_flaky (snd rnd) (snd enc) example.key_k
           (list_byte_of_string "##SW2YcwTIb9zpOOhoPsMm0123456789abcdef")
           (Errorf "context deadline exceeded")).
  - reflexivity.
  - reflexivity.
  - apply pair_eta. vm_compute. reflexivity.
  - apply pair_eta. vm_compute. reflexivity.
  - vm_compute. reflexivity.
Defined.

(** ** Further properties on a run *)

(** A first call at one second, a second at two seconds, a third at
    seventeen minutes. *)
Lemma dataKey_cache_ttl_witness :
  exists st1 st2 r st3,
    dataKey example.SecretKey "k" example.st_k = (Ok example.key_k, st1)
    /\ dataKey example.SecretKey "k" st1 = (Ok example.key_k, st2)
    /\ dataKey example.SecretKey "k" st2 = (r, st3)
    /\ trace (world st2) = trace (world st1)
    /\ count is_fetch (trace (world st2))
       = S (count is_fetch (trace (world example.st_k)))
    /\ count is_provider_decrypt (trace (world st2))
       = S (count is_provider_decrypt (trace (world example.st_k)))
    /\ (exists evs,
          trace (world st3) = trace (world st2) ++ EvGetDataKey "k" :: evs
          /\ count is_fetch (trace (world st3))
             = S (S (count is_fetch (trace (world example.st_k)))))
    /\ match r with
       | Ok dk' =>
           exists now,
             cached st3 "k"
             = Some {| expiry := time.Add now (15 * time.Minute);
                       item_dataKey := dk' |}
       | _ => cached st3 "k" = None
       end.
Proof.
  apply (dataKey_cache_ttl example.SecretKey "k" example.st_k ∅
           (example.record_k "") example.static example.key_k).
  - discriminate.
  - reflexivity.
  - reflexivity.
  - reflexivity.
  - vm_compute. reflexivity.
  - vm_compute. reflexivity.
  - vm_compute. reflexivity.
  - vm_compute. discriminate.
  - vm_compute. discriminate.
  - vm_compute. reflexivity.
Defined.

(** A first [Init] in an empty store and a second one after it; and an
    [Init] against a store that is down. *)
Lemma Init_idempotent_witness :
  let init := Init example.SecretKey example.encrypt example.decrypt in
  let st1 := snd (init example.st_static) in
  (exists st2,
      init st1 = (Ok tt, st2)
      /\ trace (world st2) = trace (world st1) ++ [EvGetDataKey "root"]
      /\ records (world st2) = records (world st1)
      /\ (exists rec,
            models.Name rec = "root"
            /\ records (world st1) = <["root" := rec]> ∅)
      /\ count is_create (trace (world st2)) = 1%nat)
  /\ (exists st',
         init example.st_down = (Err (Errorf "context deadline exceeded"), st')
         /\ records (world st') = records (world example.st_down)
         /\ trace (world st') = trace (world example.st_down) ++ [EvGetDataKey "root"]).
Proof.
  intros init st1.
  destruct (Init_idempotent example.SecretKey example.encrypt example.decrypt)
    as [Htwice Hfatal].
  split.
  - apply (Htwice example.st_static st1).
    + intros n. reflexivity.
    + apply pair_eta. vm_compute. reflexivity.
  - apply (Hfatal example.st_down (Errorf "context deadline exceeded")).
    + reflexivity.
    + reflexivity.
Defined.

(** A ciphertext of before the envelopes. *)
Lemma Decrypt_legacy_roundtrip_witness :
  let c := list_byte_of_string example.SecretKey ++ example.payload in
  example.encrypt [] example.payload (list_byte_of_string example.SecretKey) = Ok c
  /\ Decrypt example.SecretKey example.decrypt c example.st_k
     = (Ok example.payload, example.st_k).
Proof.
  intros c. split; [reflexivity|].
  apply (Decrypt_legacy_roundtrip example.SecretKey example.encrypt example.decrypt
           [] example.payload c example.st_k example_cipher eq_refl).
  - discriminate.
  - discriminate.
Defined.

(** A key name with padding is refused. *)
Lemma Decrypt_corrupt_key_name_witness :
  Decrypt example.SecretKey example.decrypt
    (hash :: example.b64_padded ++ hash :: example.payload) example.st_k
  = (Err CorruptInputError, example.st_k).
Proof.
  apply (Decrypt_corrupt_key_name example.SecretKey example.decrypt).
  - intros [H|[H|[H|[H|[]]]]]; discriminate H.
  - left. exists "="%byte. split; [|split].
    + vm_compute. tauto.
    + vm_compute. intuition discriminate.
    + reflexivity.
Defined.

(** The key name "k" broken by two line feeds is resolved as "k"
    followed by two zero bytes. *)
Lemma Decrypt_key_name_buffer_witness :
  base64.Decode example.b64_folded = Some (list_byte_of_string "k")
  /\ Decrypt example.SecretKey example.decrypt
       (hash :: example.b64_folded ++ hash :: example.payload) example.st_k
     = (k <- dataKey example.SecretKey
               (string_of_list_byte [x6b; x00; x00]) ;;
        lift (example.decrypt example.payload k)) example.st_k.
Proof.
  assert (Hdec : base64.Decode example.b64_folded = Some (list_byte_of_string "k"))
    by reflexivity.
  split; [exact Hdec|].
  apply (Decrypt_key_name_buffer example.SecretKey example.decrypt
           example.b64_folded example.payload (list_byte_of_string "k")
           example.st_k).
  - intros [H|[H|[H|[H|[]]]]]; discriminate H.
  - exact Hdec.
Defined.

(** No record of the name. *)
Lemma dataKey_lookup_fails_witness :
  exists st',
    dataKey example.SecretKey "missing" example.st_k = (Err ErrDataKeyNotFound, st')
    /\ dataKeyCache (svc st') = delete "missing" <$> dataKeyCache (svc example.st_k)
    /\ trace (world st') = trace (world example.st_k) ++ [EvGetDataKey "missing"]
    /\ records (world st') = records (world example.st_k).
Proof.
  apply (dataKey_lookup_fails example.SecretKey "missing" example.st_k
           ErrDataKeyNotFound).
  - discriminate.
  - intros item H. vm_compute in H. discriminate H.
  - right. split; [reflexivity|]. split; [vm_compute; reflexivity|reflexivity].
Defined.

(** Encrypted data that the provider cannot open. *)
Lemma dataKey_provider_fails_witness :
  exists st',
    dataKey example.SecretKey "k" example.st_bad
    = (Err (Errorf "cipher: message authentication failed"), st')
    /\ dataKeyCache (svc st') = delete "k" <$> dataKeyCache (svc example.st_bad)
    /\ trace (world st')
       = trace (world example.st_bad)
           ++ [EvGetDataKey "k";
               EvProviderDecrypt "" (list_byte_of_string "garbage")].
Proof.
  apply (dataKey_provider_fails example.SecretKey "k" example.st_bad
           example.record_bad example.static
           (Errorf "cipher: message authentication failed")).
  - discriminate.
  - intros item H. vm_compute in H. discriminate H.
  - reflexivity.
  - vm_compute. reflexivity.
  - vm_compute. reflexivity.
  - vm_compute. reflexivity.
Defined.

(** An entry with the zero expiry is served; an entry that expired is
    deleted. *)
Lemma dataKey_served_from_cache_witness :
  dataKey example.SecretKey "k" example.st_zero
  = (Ok example.key_k, with_world count_clock_read example.st_zero)
  /\ dataKey example.SecretKey "k" example.st_kms
     = dataKey_fetch "k"
         (with_svc (fun s => set_dataKeyCache (delete "k" <$> dataKeyCache s) s)
            (with_world count_clock_read example.st_kms)).
Proof.
  split.
  - apply (dataKey_served_from_cache example.SecretKey "k" example.st_zero
             {| expiry := 0; item_dataKey := example.key_k |}).
    + discriminate.
    + vm_compute. reflexivity.
    + left. reflexivity.
  - apply (dataKey_served_from_cache example.SecretKey "k" example.st_kms
             {| expiry := 1; item_dataKey := example.key_k |}).
    + discriminate.
    + vm_compute. reflexivity.
    + split; [discriminate | vm_compute; reflexivity].
Defined.

(** A cache that was never made. *)
Lemma dataKey_nil_cache_panics_witness :
  exists st',
    dataKey example.SecretKey "k" example.st_nil
    = (Panic "assignment to entry in nil map", st')
    /\ dataKeyCache (svc st') = None
    /\ trace (world st')
       = trace (world example.st_nil)
           ++ [EvGetDataKey "k";
               EvProviderDecrypt ""
                 (list_byte_of_string example.SecretKey ++ example.key_k)].
Proof.
  apply (dataKey_nil_cache_panics example.SecretKey "k" example.st_nil
           (example.record_k "") example.static example.key_k).
  - discriminate.
  - reflexivity.
  - reflexivity.
  - vm_compute. reflexivity.
  - vm_compute. reflexivity.
  - vm_compute. reflexivity.
Defined.

(** Resolving "missing" leaves the entry of "k" alone. *)
Lemma dataKey_cache_frame_witness :
  cached (snd (dataKey example.SecretKey "missing" example.st_zero)) "k"
  = cached example.st_zero "k"
  /\ cached (snd (dataKey example.SecretKey "missing" example.st_zero)) "" = None.
Proof.
  destruct (dataKey_cache_frame example.SecretKey "missing" "k" example.st_zero)
    as [Hother Hempty].
  split.
  - apply Hother. discriminate.
  - apply Hempty. vm_compute. reflexivity.
Defined.

(** The data key of "k" is in the cache after it has been resolved. *)
Lemma dataKey_caches_result_witness :
  let run := dataKey example.SecretKey "k" example.st_k in
  exists item,
    cached (snd run) "k" = Some item
    /\ item_dataKey item = example.key_k
    /\ (expired item (next_now (snd run)) = false ->
        dataKey example.SecretKey "k" (snd run)
        = (Ok example.key_k, with_world count_clock_read (snd run))).
Proof.
  intros run.
  apply (dataKey_caches_result example.SecretKey "k" example.st_k (snd run)
           example.key_k).
  - discriminate.
  - apply pair_eta. vm_compute. reflexivity.
Defined.

(** A root key made in an empty store. *)
Lemma newRandomDataKey_writes_last_witness :
  let run := newRandomDataKey example.SecretKey example.encrypt "root" example.st_static in
  fst run = Ok tt
  /\ exists b st1 encrypted evs,
       rand_Read 16 example.st_static = (Ok b, st1)
       /\ length b = 16%nat
       /\ fst (Encrypt example.SecretKey example.encrypt b st1) = Ok encrypted
       /\ hd_error encrypted = Some hash
       /\ count is_create evs = 0%nat
       /\ trace (world (snd run))
          = trace (world example.st_static) ++ evs
              ++ [EvCreateDataKey
                    {| models.Active := true;
                       models.Name := "root";
                       models.Provider := "";
                       models.EncryptedData := encrypted |}].
Proof.
  intros run.
  assert (H : run = (Ok tt, snd run)) by (apply pair_eta; vm_compute; reflexivity).
  split; [now rewrite H|].
  apply (newRandomDataKey_writes_last example.SecretKey example.encrypt "root"
           example.st_static (snd run) (Ok tt) H).
Defined.

(** The layout of a blob under the data key "k". *)
Lemma Encrypt_layout_witness :
  let enc := Encrypt example.SecretKey example.encrypt example.payload example.st_k in
  let blob := list_byte_of_string "#aw#0123456789abcdef" ++ example.payload in
  enc = (Ok blob, snd enc)
  /\ Index (drop 1 blob) [hash] = 2%Z
  /\ Forall alphabet (take 2 (drop 1 blob))
  /\ blob !! 3%nat = Some hash
  /\ (exists r dk, example.encrypt r example.payload dk = Ok (drop 4 blob))
  /\ length blob = (4 + length (drop 4 blob))%nat.
Proof.
  intros enc blob.
  assert (H : enc = (Ok blob, snd enc)) by (apply pair_eta; vm_compute; reflexivity).
  split; [exact H|].
  apply (Encrypt_layout example.SecretKey example.encrypt example.payload blob
           example.st_k (snd enc) H).
Defined.

(** [Encrypt] under a data key that the store does not hold, and with a
    cipher that fails. *)
Lemma Encrypt_errors_witness :
  let run := dataKey example.SecretKey "missing" example.st_missing in
  Encrypt example.SecretKey example.encrypt example.payload example.st_missing
  = (Err ErrDataKeyNotFound, snd run)
  /\ Encrypt example.SecretKey example.encrypt_fails example.payload example.st_static
     = (Err (Errorf "cipher: invalid key size"),
        with_world count_cipher_call example.st_static)
  /\ (fst run = Err ErrDataKeyNotFound
      \/ exists dk st0,
           run = (Ok dk, st0)
           /\ example.encrypt (cipher_rand (world st0) (cipher_calls (world st0)))
                example.payload dk
              = Err ErrDataKeyNotFound).
Proof.
  intros run.
  destruct (Encrypt_errors example.SecretKey example.encrypt example.payload
              example.st_missing) as (Hkey & _ & Hinv).
  destruct (Encrypt_errors example.SecretKey example.encrypt_fails example.payload
              example.st_static) as (_ & Hcipher & _).
  assert (Hrun : run = (Err ErrDataKeyNotFound, snd run))
    by (apply pair_eta; vm_compute; reflexivity).
  split; [exact (Hkey _ _ Hrun)|]. split.
  - apply (Hcipher (list_byte_of_string example.SecretKey) example.st_static);
      reflexivity.
  - apply (Hinv ErrDataKeyNotFound (snd run)). exact (Hkey _ _ Hrun).
Defined.

(** [Decrypt] right after [Encrypt], under the data key "k". *)
Lemma Decrypt_after_Encrypt_offline_witness :
  let enc := Encrypt example.SecretKey example.encrypt example.payload example.st_k in
  let blob := list_byte_of_string "#aw#0123456789abcdef" ++ example.payload in
  let st2 := snd (Decrypt example.SecretKey example.decrypt blob (snd enc)) in
  enc = (Ok blob, snd enc)
  /\ trace (world st2) = trace (world (snd enc))
  /\ store_calls (world st2) = store_calls (world (snd enc))
  /\ svc st2 = svc (snd enc).
Proof.
  intros enc blob st2.
  assert (H : enc = (Ok blob, snd enc)) by (apply pair_eta; vm_compute; reflexivity).
  split; [exact H|].
  apply (Decrypt_after_Encrypt_offline example.SecretKey example.encrypt
           example.decrypt example.payload blob example.st_k (snd enc) H).
  right. intros item Hitem. vm_compute in Hitem. injection Hitem as <-.
  vm_compute. reflexivity.
Defined.

(** Two blobs that are the same. *)
Lemma Encrypt_blob_names_key_witness :
  let enc := Encrypt example.SecretKey example.encrypt example.payload example.st_k in
  let blob := list_byte_of_string "#aw#0123456789abcdef" ++ example.payload in
  enc = (Ok blob, snd enc)
  /\ defaultEncryptionKey (svc example.st_k) = defaultEncryptionKey (svc example.st_k)
  /\ exists c r1 k1 r2 k2,
       example.encrypt r1 example.payload k1 = Ok c
       /\ example.encrypt r2 example.payload k2 = Ok c
       /\ blob = hash :: base64.Encode (list_byte_of_string "k") ++ hash :: c.
Proof.
  intros enc blob.
  assert (H : enc = (Ok blob, snd enc)) by (apply pair_eta; vm_compute; reflexivity).
  split; [exact H|].
  apply (Encrypt_blob_names_key example.SecretKey example.encrypt
           example.payload example.payload blob
           example.st_k (snd enc) example.st_k (snd enc) H H).
Defined.

(** The root key of a first [Init] in an empty store, resolved
    afterwards: under the default provider [""], and under "kms". *)
Lemma root_key_after_Init_witness :
  let init := Init example.SecretKey example.encrypt example.decrypt in
  let st1 := snd (init example.st_static) in
  let st1' := snd (init example.st_default_kms) in
  (exists rest,
      (models.EncryptedData <$> records (world st1) !! "root") = Some (hash :: rest)
      /\ trace (world (snd (dataKey example.SecretKey "root" st1)))
         = trace (world st1)
             ++ [EvGetDataKey "root"; EvProviderDecrypt "" (hash :: rest)])
  /\ dataKey example.SecretKey "root" st1'
     = (Err (Errorf "could not find encryption provider 'kms'"),
        after_GetDataKey "root" st1').
Proof.
  intros init st1 st1'. split.
  - destruct (root_key_after_Init example.SecretKey example.encrypt example.decrypt
                example.st_static st1) as (rest & Hrec & _ & Htrace).
    + intros n. reflexivity.
    + reflexivity.
    + apply pair_eta. vm_compute. reflexivity.
    + vm_compute. reflexivity.
    + exists rest. split; [exact Hrec|]. now apply Htrace.
  - destruct (root_key_after_Init example.SecretKey example.encrypt example.decrypt
                example.st_default_kms st1') as (rest & _ & Hfail & _).
    + intros n. reflexivity.
    + reflexivity.
    + apply pair_eta. vm_compute. reflexivity.
    + vm_compute. reflexivity.
    + apply Hfail. discriminate.
Defined.
